(** * Telegram export combiner: archive inspection, message merge and
    file reconciliation (src/utils/zipUtils.ts), embedded and verified.

    The development follows the source file top to bottom:
    - [JsString], [JsArray], [JsMap]: the [String], [Array] and [Map]
      methods the code calls;
    - [Zip]: JSZip objects, files and the records of ZipContentCard.tsx;
    - [Inspector]: [unzipFile];
    - [Merge]: [combineResultJsonWithStats];
    - [Packager]: [getTimestampFromPath] and [combineZipContents];
    - [Combiner]: the chat id check of [handleAnalyze] / [handleCombine];
    - [Examples]: the archives the statements are tried on;
    - [MergePlain]: [combineResultJson];
    - [Component]: [handleFilesAdded], [handleReset] and the buttons of
      the ZipCombiner component, with the handler runs as steps;
    - [Notions]: vocabulary for the statements about these.
    The properties follow, one module of facts per part of the code, and
    then what the parts guarantee to one another ([MergeMore],
    [PackagerMore], [InspectorMore], [ComponentMore]).

    Conventions. JavaScript numbers that hold ids, counts and timestamps are
    integers ([Z], or [nat] for a length). An exception is a [Throw] of the
    [result] type, with the error by its message template. The host's
    clock, random numbers, UUIDs and string collation are arguments.

    Scope. A message log is modelled as a Telegram export holds it: a JSON
    object with a numeric [id], whose [messages], if an array, holds
    records with a numeric [id] and a [date] that is a string; a text
    that is no JSON is [Bytes]. Archives are modelled with top-level
    names of their own, none that a plain object inherits from
    [Object.prototype] ([Notions.own_names]). JSZip is taken to read the
    entries it lists. *)

From stdpp Require Import base list strings gmap sorting.
From Stdlib Require Import ZArith Sorted Permutation Ascii.
From Stdlib Require String.

Local Open Scope Z_scope.
Local Open Scope nat_scope.

(* ===================================================================== *)
(** ** JavaScript string methods *)
(* ===================================================================== *)

Module JsString.

(** [s.startsWith(p)] *)
Definition startsWith (s p : string) : bool := String.prefix p s.

(** [s.includes(sub)] *)
Fixpoint includes (s sub : string) : bool :=
  String.prefix sub s ||
  match s with
  | EmptyString => false
  | String _ s' => includes s' sub
  end.

(** [s.substring(n)]: the suffix of [s] from index [n] on. *)
Fixpoint substring (n : nat) (s : string) : string :=
  match n, s with
  | O, _ => s
  | S n', String _ s' => substring n' s'
  | S _, EmptyString => EmptyString
  end.

(** [s.endsWith(suf)] *)
Definition endsWith (s suf : string) : bool :=
  (String.length suf <=? String.length s) &&
  String.eqb (substring (String.length s - String.length suf) s) suf.

(** [s.split(sep)] for a one-character separator; never empty. *)
Fixpoint split (sep : ascii) (s : string) : list string :=
  match s with
  | EmptyString => [EmptyString]
  | String c s' =>
      if Ascii.eqb c sep then EmptyString :: split sep s'
      else match split sep s' with
           | [] => [String c EmptyString]
           | h :: t => String c h :: t
           end
  end.

(** [parts.join(sep)] *)
Definition join (sep : string) (parts : list string) : string :=
  String.concat sep parts.

(** JavaScript truthiness of a string: only [""] is falsy. *)
Definition truthy (s : string) : bool := negb (String.eqb s "").

Definition slash : ascii := "/"%char.

End JsString.

(* ===================================================================== *)
(** ** Array.prototype.sort *)
(* ===================================================================== *)

Module JsArray.

Section Sort.
Context {A : Type}.
(** [compareFn a b < 0] puts [a] first, [> 0] puts [b] first, [0] keeps
    the original order: the sort is stable. *)
Variable compareFn : A -> A -> Z.

Fixpoint insert (x : A) (l : list A) : list A :=
  match l with
  | [] => [x]
  | y :: l' =>
      if (compareFn x y <=? 0)%Z then x :: y :: l' else y :: insert x l'
  end.

Definition sort (l : list A) : list A := foldr insert [] l.

(** The comparator lets [a] stand before [b]. *)
Definition before (a b : A) : Prop := (compareFn a b <= 0)%Z.
End Sort.

(** [arr.pop()] seen as the array that remains. *)
Definition pop {A} (l : list A) : list A := removelast l.

End JsArray.

(* ===================================================================== *)
(** ** Map: insertion-ordered, as iterated by [values()] *)
(* ===================================================================== *)

Module JsMap.

Section Map.
Context {K V : Type} `{EqDecision K}.

Fixpoint get (k : K) (m : list (K * V)) : option V :=
  match m with
  | [] => None
  | (k', v) :: m' => if bool_decide (k' = k) then Some v else get k m'
  end.

Definition has (k : K) (m : list (K * V)) : bool :=
  match get k m with Some _ => true | None => false end.

(** [set] overwrites in place when the key is present (its position in
    the iteration order is kept) and appends otherwise. *)
Fixpoint set (k : K) (v : V) (m : list (K * V)) : list (K * V) :=
  match m with
  | [] => [(k, v)]
  | (k', v') :: m' =>
      if bool_decide (k' = k) then (k, v) :: m' else (k', v') :: set k v m'
  end.

Definition keys (m : list (K * V)) : list K := map fst m.
Definition values (m : list (K * V)) : list V := map snd m.
End Map.

End JsMap.

(* ===================================================================== *)
(** ** JSZip objects and the records of ZipContentCard.tsx *)
(* ===================================================================== *)

Module Zip.

(** [TelegramMessage]: the merge reads [id] and [edited] only; every other
    field travels in [rest]. *)
Record TelegramMessage := {
  msg_id : Z;
  edited : option string;
  rest : string
}.

(** A parsed [result.json] as a Telegram export holds it: an object with
    a numeric [id], and [messages] an array of records with a numeric
    [id]. [messages] is [None] when the field is absent or not an array.
    Other JSON values (a log that is [null], an [id] that is [null] or
    missing, a message that is no record) have no term here: statements
    about logs are statements about logs of this shape. *)
Record ResultData := {
  chat_id : Z;
  chat_name : string;
  chat_type : string;
  messages : option (list TelegramMessage)
}.

(** The text of a zip entry, seen through [JSON.parse]: either a document
    that parses to [r], or bytes on which [JSON.parse] throws. *)
Inductive Payload :=
| Json (r : ResultData)
| Bytes (b : string).

Record JSZipObject := {
  name : string;
  dir : bool;
  comment : option string;
  data : Payload
}.

(** The [files] of a loaded archive, in enumeration order ([forEach] and
    [for ... in] visit them in this order). *)
Definition JSZip := list JSZipObject.

(** A browser [File]; [archive] is [None] when [JSZip.loadAsync] rejects
    its bytes. *)
Record File := {
  file_name : string;
  archive : option JSZip
}.

Record FileItem := {
  item_name : string;
  item_path : string;
  item_size : nat;
  isDirectory : bool;
  fileCount : option nat
}.

(** Optional string fields ([rootPrefix?], [resultJsonPath?]) are only
    ever tested for truthiness, so [""] stands for an absent one. *)
Record ZipContent := {
  id : string;
  zc_name : string;
  files : list string;
  topLevelItems : list FileItem;
  hasResultsJson : bool;
  rootPrefix : string;
  resultJsonPath : string;
  error : option string;
  originalFile : option File
}.

(** [zip.file(path)]: the entry of that name, unless it is a folder. *)
Definition file (zip : JSZip) (path : string) : option JSZipObject :=
  match List.find (fun e => String.eqb (name e) path) zip with
  | Some e => if dir e then None else Some e
  | None => None
  end.

(** Errors thrown by the code, by message template. *)
Inductive Error :=
| NoValidExports                      (* "No valid Telegram exports to combine" *)
| NoValidResultJson                   (* "No valid result.json files found" *)
| OriginalFileMissing (n : string)    (* "Original file for ${n} is missing" *)
| CorruptedZip                        (* JSZip.loadAsync rejects *)
| SyntaxError                         (* JSON.parse throws *)
| ChatIdMismatch (first other : Z)    (* "Chat ID mismatch: ${first} !== ${other}. Cannot combine different chats." *)
| ErrorProcessing (n : string) (e : Error)  (* "Error processing ${n}: ${e}" *)
| ErrorCombining (e : Error)          (* "Error combining result.json files: ${e}" *)
| NoResultJsonInExport                (* "No valid result.json found in the export" *)
| CouldNotFind (path : string)        (* "Could not find ${path} in the archive" *)
| ErrorParsing (e : Error)            (* "Error parsing result.json: ${e}" *)
| MismatchDetected (first other : Z)  (* "Chat ID mismatch detected: ${first} !== ${other}. Cannot combine different chats." *)
| ErrorAnalyzing (e : Error)          (* "Error analyzing files: ${e}" *)
| CannotCombineDifferentIds           (* "Cannot combine chats with different IDs" *)
| ErrorCombiningFiles (e : Error).    (* "Error combining files: ${e}" *)

Inductive result (A : Type) :=
| Ok (a : A)
| Throw (e : Error).
Arguments Ok {A} a.
Arguments Throw {A} e.

Definition bind {A B} (r : result A) (k : A -> result B) : result B :=
  match r with
  | Ok a => k a
  | Throw e => Throw e
  end.

(** [try { body } catch (error) { throw wrap(error) }] *)
Definition try_catch {A} (body : result A) (wrap : Error -> Error) : result A :=
  match body with
  | Ok a => Ok a
  | Throw e => Throw (wrap e)
  end.

(** [JSZip.loadAsync(f)] *)
Definition loadAsync (f : File) : result JSZip :=
  match archive f with
  | Some zip => Ok zip
  | None => Throw CorruptedZip
  end.

(** [JSON.parse(await entry.async("string"))] *)
Definition JSON_parse (e : JSZipObject) : result ResultData :=
  match data e with
  | Json r => Ok r
  | Bytes _ => Throw SyntaxError
  end.

End Zip.

#[global] Instance result_ret : MRet Zip.result := @Zip.Ok.
#[global] Instance result_bind : MBind Zip.result :=
  fun A B k r => Zip.bind r k.

(** Opens the sequencing and [try]/[catch] of a [result] in goal and
    hypotheses. *)
Ltac unfold_result :=
  unfold mbind, mret, result_bind, result_ret, Zip.bind, Zip.try_catch in *.

(* ===================================================================== *)
(** ** unzipFile *)
(* ===================================================================== *)

Module Inspector.
Import JsString Zip.

(** The guard shared by the three passes: hidden files and [__MACOSX]. *)
Definition skipped (relativePath : string) : bool :=
  startsWith relativePath "." ||
  startsWith relativePath "__MACOSX" ||
  includes relativePath "/__MACOSX/".

(** *** First pass: locate result.json *)

Record Located := {
  loc_hasResultsJson : bool;
  loc_resultJsonPath : string;
  loc_rootPrefix : string
}.

Definition located0 : Located :=
  {| loc_hasResultsJson := false; loc_resultJsonPath := ""; loc_rootPrefix := "" |}.

(** [pathParts.pop(); rootPrefix = pathParts.join("/") + "/"] *)
Definition prefix_of (relativePath : string) : string :=
  join "/" (JsArray.pop (split slash relativePath)) +:+ "/".

(** [relativePath === "result.json" || relativePath.endsWith("/result.json")] *)
Definition is_result_json (relativePath : string) : bool :=
  String.eqb relativePath "result.json" || endsWith relativePath "/result.json".

Definition locate_step (st : Located) (zipEntry : JSZipObject) : Located :=
  let relativePath := name zipEntry in
  if skipped relativePath then st
  else if negb (dir zipEntry) then
    if is_result_json relativePath
    then {| loc_hasResultsJson := true;
            loc_resultJsonPath := relativePath;
            loc_rootPrefix :=
              if negb (String.eqb relativePath "result.json")
              then prefix_of relativePath
              else loc_rootPrefix st |}
    else st
  else st.

Definition locate (content : JSZip) : Located :=
  foldl locate_step located0 content.

(** The entries the first pass takes for a message log, in enumeration
    order. *)
Definition candidate (zipEntry : JSZipObject) : bool :=
  negb (skipped (name zipEntry)) && negb (dir zipEntry) &&
  is_result_json (name zipEntry).

Definition candidates (content : JSZip) : list JSZipObject :=
  List.filter candidate content.

(** *** Second pass: files relative to the root, grouped by top folder *)

Record Collected := {
  allFiles : list string;
  folderContents : gmap string (list string)
}.

Definition collected0 : Collected :=
  {| allFiles := []; folderContents := ∅ |}.

(** [if (!folderContents[folder]) folderContents[folder] = [];
     folderContents[folder].push(p)], for a [folder] that is no member
    of [Object.prototype]: [folderContents] is a plain object, and for
    [constructor], [__proto__] and the like the test finds the inherited
    member and [push] throws. *)
Definition push_folder (folder p : string) (fc : gmap string (list string))
  : gmap string (list string) :=
  <[folder := default [] (fc !! folder) ++ [p]]> fc.

(** [allFiles.push(p)] and the folder tracking that follows it. *)
Definition track (st : Collected) (p : string) : Collected :=
  let topLevel := hd "" (split slash p) in
  {| allFiles := allFiles st ++ [p];
     folderContents :=
       if includes p "/" then push_folder topLevel p (folderContents st)
       else folderContents st |}.

Definition collect_step (rootPrefix : string) (st : Collected)
    (zipEntry : JSZipObject) : Collected :=
  let relativePath := name zipEntry in
  if skipped relativePath then st
  else if truthy rootPrefix then
    if negb (startsWith relativePath rootPrefix) then st
    else
      let adjustedPath := substring (String.length rootPrefix) relativePath in
      if negb (dir zipEntry) && truthy adjustedPath then track st adjustedPath
      else st
  else
    if negb (dir zipEntry) then track st relativePath else st.

Definition collect (rootPrefix : string) (content : JSZip) : Collected :=
  foldl (collect_step rootPrefix) collected0 content.

(** *** Third pass: one summary item per top-level name *)

Record Summary := {
  items : list FileItem;
  processedItems : gset string
}.

Definition summary0 : Summary := {| items := []; processedItems := ∅ |}.

(** [Number(zipEntry.comment?.length || 0)] *)
Definition entry_size (zipEntry : JSZipObject) : nat :=
  match comment zipEntry with
  | Some c => String.length c
  | None => 0
  end.

Definition processFilePath (fc : gmap string (list string)) (st : Summary)
    (filePath : string) (zipEntry : JSZipObject) : Summary :=
  let pathParts := split slash filePath in
  let topLevel := hd "" pathParts in
  if bool_decide (topLevel ∈ processedItems st) || negb (truthy topLevel) then st
  else
    let processed := {[topLevel]} ∪ processedItems st in
    if (length pathParts =? 1) && negb (dir zipEntry) then
      {| items := items st ++
           [{| item_name := topLevel; item_path := filePath;
               item_size := entry_size zipEntry;
               isDirectory := false; fileCount := None |}];
         processedItems := processed |}
    else
      let filesInFolder := default [] (fc !! topLevel) in
      {| items := items st ++
           [{| item_name := topLevel; item_path := topLevel +:+ "/";
               item_size := 0;
               isDirectory := true;
               fileCount := Some (length filesInFolder) |}];
         processedItems := processed |}.

Definition summarise_step (rootPrefix : string) (fc : gmap string (list string))
    (st : Summary) (zipEntry : JSZipObject) : Summary :=
  let relativePath := name zipEntry in
  if skipped relativePath then st
  else if truthy rootPrefix then
    if startsWith relativePath rootPrefix then
      let adjustedPath := substring (String.length rootPrefix) relativePath in
      if truthy adjustedPath then processFilePath fc st adjustedPath zipEntry
      else st
    else st
  else processFilePath fc st relativePath zipEntry.

Definition summarise (rootPrefix : string) (fc : gmap string (list string))
    (content : JSZip) : Summary :=
  foldl (summarise_step rootPrefix fc) summary0 content.

Section WithHost.
(** [String.prototype.localeCompare] is provided by the host. *)
Variable localeCompare : string -> string -> Z.

(** The comparator of [topLevelItems.sort]. *)
Definition compareItems (a b : FileItem) : Z :=
  if isDirectory a && negb (isDirectory b) then (-1)%Z
  else if negb (isDirectory a) && isDirectory b then 1%Z
  else localeCompare (item_name a) (item_name b).

(** The part of [unzipFile] after [zip.loadAsync]. [uuid] is the value
    [uuidv4()] returns. *)
Definition inspect (uuid : string) (f : File) (content : JSZip) : ZipContent :=
  let loc := locate content in
  let rootPrefix := loc_rootPrefix loc in
  let col := collect rootPrefix content in
  let sum := summarise rootPrefix (folderContents col) content in
  {| id := uuid;
     zc_name := file_name f;
     files := allFiles col;
     topLevelItems := JsArray.sort compareItems (items sum);
     hasResultsJson := loc_hasResultsJson loc;
     rootPrefix := rootPrefix;
     resultJsonPath := loc_resultJsonPath loc;
     error :=
       if negb (loc_hasResultsJson loc)
       then Some "No result.json found in the archive. This may not be a valid Telegram export."
       else None;
     originalFile := Some f |}.

Definition unzipFile (uuid : string) (f : File) : result ZipContent :=
  content ← loadAsync f;
  mret (inspect uuid f content).
End WithHost.

(** One host collation among many: comparison by character code. The
    example archives are inspected with it where the order of the names
    plays no part; the collation of an actual host is locale-sensitive
    (see [Notions.localeCompare_caseless]). *)
Fixpoint localeCompare_lex (a b : string) : Z :=
  match a, b with
  | EmptyString, EmptyString => 0%Z
  | EmptyString, String _ _ => (-1)%Z
  | String _ _, EmptyString => 1%Z
  | String x a', String y b' =>
      match (Ascii.N_of_ascii x ?= Ascii.N_of_ascii y)%N with
      | Lt => (-1)%Z
      | Gt => 1%Z
      | Eq => localeCompare_lex a' b'
      end
  end.

(** *** Vocabulary for the statements about the summary *)

(** Case-sensitive lexicographic order: by character code, a proper
    prefix first. *)
Inductive lex_le : string -> string -> Prop :=
| lex_le_empty s : lex_le EmptyString s
| lex_le_head x y s t :
    (Ascii.N_of_ascii x < Ascii.N_of_ascii y)%N ->
    lex_le (String x s) (String y t)
| lex_le_tail x s t : lex_le s t -> lex_le (String x s) (String x t).

(** Directories before files, and names in order within each group. *)
Definition summary_order (a b : FileItem) : Prop :=
  (isDirectory a = true /\ isDirectory b = false) \/
  (isDirectory a = isDirectory b /\ lex_le (item_name a) (item_name b)).

(** The root-relative path [p] lies under the first path segment
    [folder]. *)
Definition under (folder p : string) : bool :=
  includes p "/" && String.eqb (hd "" (split slash p)) folder.

(** What the second pass maintains: each folder's list holds the
    collected paths under it, in order. *)
Definition grouped (st : Collected) : Prop :=
  forall folder,
    default [] (folderContents st !! folder) =
    List.filter (under folder) (allFiles st).

(** The root-relative path of an entry, as the second and third pass
    compute it. *)
Definition adjusted (rootPrefix : string) (zipEntry : JSZipObject) : string :=
  if truthy rootPrefix
  then substring (String.length rootPrefix) (name zipEntry)
  else name zipEntry.

(** What the third pass puts into an item, given the folder lists. *)
Definition described (rootPrefix : string) (fc : gmap string (list string))
    (content : JSZip) (item : FileItem) : Prop :=
  if isDirectory item then
    item_size item = 0 /\
    fileCount item = Some (length (default [] (fc !! item_name item)))
  else
    exists zipEntry,
      zipEntry ∈ content /\ dir zipEntry = false /\
      adjusted rootPrefix zipEntry = item_name item /\
      item_path item = item_name item /\
      item_size item = entry_size zipEntry /\
      fileCount item = None.

End Inspector.

(* ===================================================================== *)
(** ** combineResultJsonWithStats *)
(* ===================================================================== *)

Module Merge.
Import JsString Zip.

(** The variables the first loop updates. *)
Record Parsed := {
  resultJsons : list ResultData;
  firstChatId : option Z;
  chatName : option string;
  chatType : option string;
  totalInputMessages : Z
}.

Definition parsed0 : Parsed :=
  {| resultJsons := []; firstChatId := None; chatName := None;
     chatType := None; totalInputMessages := 0 |}.

(** Reading one archive's log: [Ok None] is a [continue] (no stored file,
    no log path, or no such entry), [Throw] a rejected archive or a log
    that is not JSON. *)
Definition read_log (content : ZipContent) : result (option ResultData) :=
  match originalFile content with
  | None => Ok None
  | Some f =>
      if negb (truthy (resultJsonPath content)) then Ok None
      else
        zip ← loadAsync f;
        match file zip (resultJsonPath content) with
        | None => Ok None
        | Some resultJsonEntry =>
            resultData ← JSON_parse resultJsonEntry;
            Ok (Some resultData)
        end
  end.

Definition message_count (resultData : ResultData) : Z :=
  match messages resultData with
  | Some ms => Z.of_nat (length ms)
  | None => 0
  end.

(** [resultJsons.push(resultData)] with the counters around it. *)
Definition accept (st : Parsed) (resultData : ResultData) : result Parsed :=
  let total := (totalInputMessages st + message_count resultData)%Z in
  match firstChatId st with
  | None =>
      Ok {| resultJsons := resultJsons st ++ [resultData];
            firstChatId := Some (chat_id resultData);
            chatName := Some (chat_name resultData);
            chatType := Some (chat_type resultData);
            totalInputMessages := total |}
  | Some first =>
      if negb (first =? chat_id resultData)%Z
      then Throw (ChatIdMismatch first (chat_id resultData))
      else
        Ok {| resultJsons := resultJsons st ++ [resultData];
              firstChatId := firstChatId st;
              chatName := chatName st;
              chatType := chatType st;
              totalInputMessages := total |}
  end.

Definition parse_step (st : Parsed) (content : ZipContent) : result Parsed :=
  try_catch
    (log ← read_log content;
     match log with
     | None => Ok st
     | Some resultData => accept st resultData
     end)
    (ErrorProcessing (zc_name content)).

Fixpoint parse_loop (st : Parsed) (contents : list ZipContent) : result Parsed :=
  match contents with
  | [] => Ok st
  | content :: contents' =>
      st' ← parse_step st content;
      parse_loop st' contents'
  end.

(** Truthiness of [message.edited]. *)
Definition carries_edit_marker (message : TelegramMessage) : bool :=
  match edited message with
  | Some e => truthy e
  | None => false
  end.

(** The body of the inner loop over [resultJson.messages]. *)
Definition dedup_message (messagesById : list (Z * TelegramMessage))
    (message : TelegramMessage) : list (Z * TelegramMessage) :=
  let messageId := msg_id message in
  if negb (JsMap.has messageId messagesById) ||
     (carries_edit_marker message &&
      negb (match JsMap.get messageId messagesById with
            | Some kept => carries_edit_marker kept
            | None => false
            end))
  then JsMap.set messageId message messagesById
  else messagesById.

Definition dedup_log (messagesById : list (Z * TelegramMessage))
    (resultJson : ResultData) : list (Z * TelegramMessage) :=
  match messages resultJson with
  | None => messagesById
  | Some ms => foldl dedup_message messagesById ms
  end.

Definition dedup (resultJsons : list ResultData) : list (Z * TelegramMessage) :=
  foldl dedup_log [] resultJsons.

(** [(a, b) => a.id - b.id] *)
Definition compareIds (a b : TelegramMessage) : Z := (msg_id a - msg_id b)%Z.

Record CombinedResult := {
  cr_name : option string;
  cr_type : option string;
  cr_id : option Z;
  cr_messages : list TelegramMessage
}.

(** [buffer] stands for the encoded [JSON.stringify(combinedResult)]. *)
Record Stats := {
  buffer : CombinedResult;
  totalMessages : Z;
  duplicateMessages : Z
}.

Definition combineResultJsonWithStats (contents : list ZipContent) : result Stats :=
  if length contents =? 0 then Throw NoValidExports
  else
    st ← parse_loop parsed0 contents;
    if length (resultJsons st) =? 0 then Throw NoValidResultJson
    else
      let messagesById := dedup (resultJsons st) in
      let combined := JsArray.sort compareIds (JsMap.values messagesById) in
      let uniqueMessageCount := Z.of_nat (length combined) in
      let duplicateMessages :=
        Z.max 0 (totalInputMessages st - uniqueMessageCount) in
      Ok {| buffer := {| cr_name := chatName st; cr_type := chatType st;
                         cr_id := firstChatId st; cr_messages := combined |};
            totalMessages := uniqueMessageCount;
            duplicateMessages := duplicateMessages |}.

(** *** Vocabulary for the statements about the merge *)

(** The logs of the archives in supply order, when every archive reads. *)
Fixpoint read_logs (contents : list ZipContent) : result (list ResultData) :=
  match contents with
  | [] => Ok []
  | content :: contents' =>
      log ← read_log content;
      logs ← read_logs contents';
      Ok (match log with Some resultData => resultData :: logs | None => logs end)
  end.

(** The log of the first archive, in supply order, that is read and
    parsed. *)
Definition first_parsed (contents : list ZipContent) : option ResultData :=
  head (omap (fun c => match read_log c with
                       | Ok (Some r) => Some r
                       | _ => None
                       end) contents).

(** The reference chat id once [logs] have been accepted. *)
Definition reference_id (first : option Z) (logs : list ResultData) : option Z :=
  match first with
  | Some f => Some f
  | None => chat_id <$> head logs
  end.

(** All message records in processing order: archive after archive, and
    within an archive in the order of its log. *)
Definition all_messages (resultJsons : list ResultData) : list TelegramMessage :=
  flat_map (fun r => default [] (messages r)) resultJsons.


(** Every key of the map is the id of the record stored under it. *)
Definition keyed (m : list (Z * TelegramMessage)) : Prop :=
  Forall (fun p => p.1 = msg_id p.2) m.

(** The sum of the per-archive message counts. *)
Definition total_count (resultJsons : list ResultData) : Z :=
  foldr (fun r acc => (message_count r + acc)%Z) 0%Z resultJsons.


End Merge.

(* ===================================================================== *)
(** ** getTimestampFromPath and combineZipContents *)
(* ===================================================================== *)

Module Packager.
Import JsString Zip.

(** What the host answers at its [n]-th call of [getTimestampFromPath]:
    [Date.now()] in milliseconds and
    [Math.floor(Math.random() * 10000000)], a value in [0, 10000000). *)
Record Host := {
  Date_now : nat -> Z;
  Math_random_scaled : nat -> Z
}.

Definition getTimestampFromPath (h : Host) (n : nat) (path : string) : Z :=
  let pathFactor := (Z.of_nat (String.length path) * 100)%Z in
  (Date_now h n - Math_random_scaled h n + pathFactor)%Z.

(** What [combinedZip] holds at the path of a file. The folder entries
    JSZip adds for the parent directories are no files and are left out. *)
Inductive Written :=
| Copied (p : Payload)
| Serialized (c : Merge.CombinedResult).

Record Packing := {
  combinedZip : gmap string Written;
  fileMap : gmap string (string * Z);
  folders : list string;
  totalFiles : nat;
  clock : nat
}.

Definition packing0 : Packing :=
  {| combinedZip := ∅; fileMap := ∅; folders := []; totalFiles := 0; clock := 0 |}.

(** [folders.add(x)] on an insertion-ordered [Set]. *)
Definition Set_add (x : string) (s : list string) : list string :=
  if bool_decide (x ∈ s) then s else s ++ [x].

(** The body of [for (const filePath in originalZip.files)]. *)
Definition pack_entry (h : Host) (rootPrefix : string) (st : Packing)
    (zipEntry : JSZipObject) : Packing :=
  let filePath := name zipEntry in
  if dir zipEntry ||
     (truthy rootPrefix && negb (startsWith filePath rootPrefix)) ||
     startsWith filePath "." ||
     startsWith filePath "__MACOSX/" ||
     includes filePath "/__MACOSX/"
  then st
  else
    let adjustedPath :=
      if truthy rootPrefix
      then substring (String.length rootPrefix) filePath
      else filePath in
    if negb (truthy adjustedPath) then st
    else if String.eqb adjustedPath "result.json" then st
    else
      let pathParts := split slash adjustedPath in
      let folders' :=
        if 1 <? length pathParts
        then Set_add (hd "" pathParts) (folders st)
        else folders st in
      let currentTimestamp := getTimestampFromPath h (clock st) adjustedPath in
      let existing := fileMap st !! adjustedPath in
      if match existing with
         | None => true
         | Some e => (e.2 <? currentTimestamp)%Z
         end
      then
        {| combinedZip := <[adjustedPath := Copied (data zipEntry)]> (combinedZip st);
           fileMap := <[adjustedPath := (adjustedPath, currentTimestamp)]> (fileMap st);
           folders := folders';
           totalFiles := S (totalFiles st);
           clock := S (clock st) |}
      else
        {| combinedZip := combinedZip st;
           fileMap := fileMap st;
           folders := folders';
           totalFiles := totalFiles st;
           clock := S (clock st) |}.

Definition pack_content (h : Host) (st : Packing) (content : ZipContent)
  : result Packing :=
  match originalFile content with
  | None => Throw (OriginalFileMissing (zc_name content))
  | Some f =>
      originalZip ← loadAsync f;
      Ok (foldl (pack_entry h (rootPrefix content)) st originalZip)
  end.

Fixpoint pack_loop (h : Host) (st : Packing) (contents : list ZipContent)
  : result Packing :=
  match contents with
  | [] => Ok st
  | content :: contents' =>
      st' ← pack_content h st content;
      pack_loop h st' contents'
  end.

(** [!content.error] *)
Definition valid (content : ZipContent) : bool :=
  match error content with
  | Some e => negb (truthy e)
  | None => true
  end.

(** *** Vocabulary for the statements about the packaging *)

(** The root-relative path under which the loop body handles an entry;
    [None] for an entry it skips. *)
Definition packed_path (rootPrefix : string) (zipEntry : JSZipObject)
  : option string :=
  let filePath := name zipEntry in
  if dir zipEntry ||
     (truthy rootPrefix && negb (startsWith filePath rootPrefix)) ||
     startsWith filePath "." ||
     startsWith filePath "__MACOSX/" ||
     includes filePath "/__MACOSX/"
  then None
  else
    let adjustedPath :=
      if truthy rootPrefix
      then substring (String.length rootPrefix) filePath
      else filePath in
    if negb (truthy adjustedPath) then None
    else if String.eqb adjustedPath "result.json" then None
    else Some adjustedPath.

(** The paths handled over all archives, in processing order, with
    repetitions. *)
Definition packed_paths (contents : list ZipContent) : list string :=
  flat_map
    (fun content =>
       match originalFile content with
       | Some f => omap (packed_path (rootPrefix content)) (default [] (archive f))
       | None => []
       end)
    contents.

(** The paths [seen] so far are the keys of both maps, the counter is at
    most their number, and without repetition among them the container
    holds exactly that many files. *)
Definition accounted (seen : list string) (st : Packing) : Prop :=
  (forall q, is_Some (fileMap st !! q) <-> q ∈ seen) /\
  (forall q, is_Some (combinedZip st !! q) <-> q ∈ seen) /\
  totalFiles st <= length seen /\
  (NoDup seen -> size (combinedZip st) = length seen).

(** Every write raises the counter, and nothing is written at the path of
    the message log. *)
Definition counted (st : Packing) : Prop :=
  size (combinedZip st) <= totalFiles st /\
  combinedZip st !! "result.json" = None.

(** A host whose draws lie in the range of
    [Math.floor(Math.random() * 10000000)] and whose clock does not run
    backwards. *)
Definition plausible (h : Host) : Prop :=
  forall n, (0 <= Math_random_scaled h n < 10000000)%Z /\
            (Date_now h n <= Date_now h (S n))%Z.

(** [blob] stands for the generated archive: its files by path. *)
Record Combined := {
  blob : gmap string Written;
  out_totalMessages : Z;
  out_duplicateMessages : Z;
  out_folders : list string;
  out_totalFiles : nat
}.

Definition combineZipContents (h : Host) (contents : list ZipContent)
  : result Combined :=
  let validContents := List.filter valid contents in
  if length validContents =? 0 then Throw NoValidExports
  else
    st ← pack_loop h packing0 validContents;
    stats ← try_catch (Merge.combineResultJsonWithStats validContents) ErrorCombining;
    Ok {| blob := <["result.json" := Serialized (Merge.buffer stats)]> (combinedZip st);
          out_totalMessages := Merge.totalMessages stats;
          out_duplicateMessages := Merge.duplicateMessages stats;
          out_folders := folders st;
          out_totalFiles := totalFiles st |}.

End Packager.

(* ===================================================================== *)
(** ** The chat id check of the ZipCombiner component *)
(* ===================================================================== *)

Module Combiner.
Import JsString Zip.

(** [analyzeResultJson], as far as the id check reads its result:
    [messageCount] and [dateRange] are only displayed, and so is the
    overlap warning [handleAnalyze] derives from the date ranges. The
    date range is computed inside the [try]; it does not throw on
    messages whose [date] is a string or absent, and for such logs, with
    a numeric [id] (so that [id || 0] is the id, zero included), the
    function returns as modelled. On other logs the source may throw
    [Error parsing result.json] where this one returns. *)
Record AnalysisResult := {
  an_id : Z;
  an_name : string
}.

Definition analyzeResultJson (content : ZipContent) : result AnalysisResult :=
  match originalFile content with
  | None => Throw NoResultJsonInExport
  | Some f =>
      if negb (truthy (resultJsonPath content)) then Throw NoResultJsonInExport
      else
        zip ← loadAsync f;
        match file zip (resultJsonPath content) with
        | None => Throw (CouldNotFind (resultJsonPath content))
        | Some resultJsonEntry =>
            try_catch
              (resultData ← JSON_parse resultJsonEntry;
               Ok {| an_id := chat_id resultData;
                     an_name := if truthy (chat_name resultData)
                                then chat_name resultData
                                else "Unknown Chat" |})
              ErrorParsing
        end
  end.

(** The component state the two handlers read and write. *)
Record State := {
  zipContents : list ZipContent;
  analysisComplete : bool;
  ui_error : option Error;
  analysisResults : list AnalysisResult;
  idMismatch : bool;
  combinedResult : option Packager.Combined
}.

(** The locals of the loop of [handleAnalyze], with the two state
    variables it sets on the way. *)
Record Analysing := {
  results : list AnalysisResult;
  firstId : option Z;
  mismatch : bool;
  shown : option Error
}.

Definition analyse_step (st : Analysing) (content : ZipContent) : result Analysing :=
  if negb (Packager.valid content) || negb (hasResultsJson content) then Ok st
  else
    analysis ← analyzeResultJson content;
    let results' := results st ++ [analysis] in
    match firstId st with
    | None =>
        Ok {| results := results'; firstId := Some (an_id analysis);
              mismatch := mismatch st; shown := shown st |}
    | Some first =>
        if negb (first =? an_id analysis)%Z
        then Ok {| results := results'; firstId := firstId st;
                   mismatch := true;
                   shown := Some (MismatchDetected first (an_id analysis)) |}
        else Ok {| results := results'; firstId := firstId st;
                   mismatch := mismatch st; shown := shown st |}
    end.

(** The loop keeps what it has set so far when an analysis throws. *)
Fixpoint analyse_loop (st : Analysing) (contents : list ZipContent)
  : Analysing * option Error :=
  match contents with
  | [] => (st, None)
  | content :: contents' =>
      match analyse_step st content with
      | Ok st' => analyse_loop st' contents'
      | Throw e => (st, Some e)
      end
  end.

Definition analysing0 : Analysing :=
  {| results := []; firstId := None; mismatch := false; shown := None |}.

Definition handleAnalyze (s : State) : State :=
  match analyse_loop analysing0 (zipContents s) with
  | (st, None) =>
      {| zipContents := zipContents s;
         analysisComplete := true;
         ui_error := shown st;
         analysisResults := results st;
         idMismatch := mismatch st;
         combinedResult := None |}
  | (st, Some e) =>
      {| zipContents := zipContents s;
         analysisComplete := analysisComplete s;
         ui_error := Some (ErrorAnalyzing e);
         analysisResults := [];
         idMismatch := mismatch st;
         combinedResult := None |}
  end.

Definition handleCombine (h : Packager.Host) (s : State) : State :=
  if idMismatch s then
    {| zipContents := zipContents s; analysisComplete := analysisComplete s;
       ui_error := Some CannotCombineDifferentIds;
       analysisResults := analysisResults s; idMismatch := idMismatch s;
       combinedResult := combinedResult s |}
  else
    match Packager.combineZipContents h (zipContents s) with
    | Ok r =>
        {| zipContents := zipContents s; analysisComplete := analysisComplete s;
           ui_error := None;
           analysisResults := analysisResults s; idMismatch := idMismatch s;
           combinedResult := Some r |}
    | Throw e =>
        {| zipContents := zipContents s; analysisComplete := analysisComplete s;
           ui_error := Some (ErrorCombiningFiles e);
           analysisResults := analysisResults s; idMismatch := idMismatch s;
           combinedResult := combinedResult s |}
    end.

(** *** Vocabulary for the statements about the component *)

(** The loop analyses [content] and obtains [a]. *)
Definition analysed (content : ZipContent) (a : AnalysisResult) : Prop :=
  Packager.valid content = true /\ hasResultsJson content = true /\
  analyzeResultJson content = Ok a.

(** What the loop maintains: the reference is the id of the first
    result; a result that differs from it has raised the flag; and a
    raised flag comes with a message quoting the reference and a
    different id. *)
Definition tracking (st : Analysing) : Prop :=
  firstId st = an_id <$> head (results st) /\
  (forall a f, a ∈ results st -> firstId st = Some f -> an_id a ≠ f ->
               mismatch st = true) /\
  (mismatch st = true ->
     exists f b, firstId st = Some f /\ b ≠ f /\
                 shown st = Some (MismatchDetected f b)).

End Combiner.

(* ===================================================================== *)
(** ** Archives used as examples *)
(* ===================================================================== *)

Module Examples.
Import Zip.

Definition plain_file (n : string) : JSZipObject :=
  {| name := n; dir := false; comment := None; data := Bytes "" |}.

Definition folder (n : string) : JSZipObject :=
  {| name := n; dir := true; comment := None; data := Bytes "" |}.

(** An export whose root lies two folders deep. *)
Definition nested_export : JSZip :=
  [ folder "export/chat/";
    plain_file "export/chat/result.json";
    plain_file "export/chat/photos/a.jpg" ].

(** A flat export with a commented note and two photos. *)
Definition commented_export : JSZip :=
  [ plain_file "result.json";
    {| name := "notes.txt"; dir := false; comment := Some "hello";
       data := Bytes "some notes" |};
    plain_file "photos/b.jpg";
    plain_file "photos/a.jpg" ].

(** An archive with two candidate message logs. *)
Definition two_logs : JSZip :=
  [ plain_file "a/result.json"; plain_file "b/result.json" ].

Definition some_file : File := {| file_name := "export.zip"; archive := None |}.

Definition message (i : Z) (e : option string) (r : string) : TelegramMessage :=
  {| msg_id := i; edited := e; rest := r |}.

Definition log (chat : Z) (ms : list TelegramMessage) : ResultData :=
  {| chat_id := chat; chat_name := "Family"; chat_type := "personal_chat";
     messages := Some ms |}.

Definition json_file (n : string) (r : ResultData) : JSZipObject :=
  {| name := n; dir := false; comment := None; data := Json r |}.

Definition bytes_file (n b : string) : JSZipObject :=
  {| name := n; dir := false; comment := None; data := Bytes b |}.

(** The inspection result of an archive named [n] with entries [zip]. *)
Definition export_of (n : string) (zip : JSZip) : ZipContent :=
  Inspector.inspect Inspector.localeCompare_lex n
    {| file_name := n; archive := Some zip |} zip.

Definition edited_two : TelegramMessage :=
  message 2 (Some "2024-01-01T10:00:00") "two, edited".
Definition plain_two : TelegramMessage := message 2 None "two".

(** Two overlapping exports of chat 42; both hold [photos/a.jpg]. *)
Definition first_export : ZipContent :=
  export_of "first.zip"
    [ json_file "result.json" (log 42 [message 1 None "one"; edited_two]);
      bytes_file "photos/a.jpg" "first copy" ].

Definition second_export : ZipContent :=
  export_of "second.zip"
    [ json_file "result.json" (log 42 [plain_two; message 3 None "three"]);
      bytes_file "photos/a.jpg" "second copy" ].

(** An export of another chat, and one whose log is not JSON. *)
Definition other_chat : ZipContent :=
  export_of "other.zip" [ json_file "result.json" (log 200 [message 1 None "uno"]) ].


(** Two runs at the same instant; only the second run's second draw is
    smaller than its first. *)
Definition steady_run : Packager.Host :=
  {| Packager.Date_now := fun _ => 1700000000000%Z;
     Packager.Math_random_scaled := fun _ => 5000000%Z |}.

Definition lucky_run : Packager.Host :=
  {| Packager.Date_now := fun _ => 1700000000000%Z;
     Packager.Math_random_scaled :=
       fun n => match n with O => 5000000%Z | S _ => 3000000%Z end |}.

End Examples.

(* ===================================================================== *)
(** ** combineResultJson *)
(* ===================================================================== *)

Module MergePlain.
Import JsString Zip.

(** The variables the first loop of [combineResultJson] updates. *)
Record Parsed := {
  resultJsons : list ResultData;
  firstChatId : option Z;
  chatName : option string;
  chatType : option string
}.

Definition parsed0 : Parsed :=
  {| resultJsons := []; firstChatId := None; chatName := None; chatType := None |}.

(** The chat id check and [resultJsons.push(resultData)]. *)
Definition accept (st : Parsed) (resultData : ResultData) : result Parsed :=
  match firstChatId st with
  | None =>
      Ok {| resultJsons := resultJsons st ++ [resultData];
            firstChatId := Some (chat_id resultData);
            chatName := Some (chat_name resultData);
            chatType := Some (chat_type resultData) |}
  | Some first =>
      if negb (first =? chat_id resultData)%Z
      then Throw (ChatIdMismatch first (chat_id resultData))
      else
        Ok {| resultJsons := resultJsons st ++ [resultData];
              firstChatId := firstChatId st;
              chatName := chatName st;
              chatType := chatType st |}
  end.

(** The archive is read as in [combineResultJsonWithStats]: the same
    statements in the same order. *)
Definition parse_step (st : Parsed) (content : ZipContent) : result Parsed :=
  try_catch
    (log ← Merge.read_log content;
     match log with
     | None => Ok st
     | Some resultData => accept st resultData
     end)
    (ErrorProcessing (zc_name content)).

Fixpoint parse_loop (st : Parsed) (contents : list ZipContent) : result Parsed :=
  match contents with
  | [] => Ok st
  | content :: contents' =>
      st' ← parse_step st content;
      parse_loop st' contents'
  end.


End MergePlain.

(* ===================================================================== *)
(** ** The other handlers of the ZipCombiner component *)
(* ===================================================================== *)

Module Component.
Import JsString Zip Combiner.

Section WithHost.
Variable localeCompare : string -> string -> Z.

(** The loop of [handleFilesAdded]. [uuidv4 n] is what the [n]-th call of
    [uuidv4()] returns during this run; [unzipFile] draws an id only when
    the archive has been loaded. *)
Fixpoint add_files (uuidv4 : nat -> string) (n : nat) (s : State)
    (files : list File) : State :=
  match files with
  | [] => s
  | file :: files' =>
      match Inspector.unzipFile localeCompare (uuidv4 n) file with
      | Ok content =>
          add_files uuidv4 (S n)
            {| zipContents := zipContents s ++ [content];
               analysisComplete := analysisComplete s;
               ui_error := ui_error s;
               analysisResults := analysisResults s;
               idMismatch := idMismatch s;
               combinedResult := combinedResult s |}
            files'
      | Throw e =>
          add_files uuidv4 n
            {| zipContents := zipContents s;
               analysisComplete := analysisComplete s;
               ui_error := Some (ErrorProcessing (file_name file) e);
               analysisResults := analysisResults s;
               idMismatch := idMismatch s;
               combinedResult := combinedResult s |}
            files'
      end
  end.

Definition handleFilesAdded (uuidv4 : nat -> string) (files : list File)
    (s : State) : State :=
  add_files uuidv4 0
    {| zipContents := zipContents s;
       analysisComplete := false;
       ui_error := None;
       analysisResults := [];
       idMismatch := false;
       combinedResult := None |}
    files.
End WithHost.

Definition handleReset (s : State) : State :=
  {| zipContents := [];
     analysisComplete := false;
     ui_error := None;
     analysisResults := [];
     idMismatch := false;
     combinedResult := None |}.

(** [zipContents.length > 1 && zipContents.every((content) => !content.error)] *)
Definition hasValidFiles (s : State) : bool :=
  (1 <? length (zipContents s)) && forallb Packager.valid (zipContents s).

(** The buttons are rendered when [zipContents.length > 0]; between two
    handler runs [isAnalyzing] and [isCombining] are false. *)
Definition buttons_shown (s : State) : bool := 0 <? length (zipContents s).

Definition analyze_enabled (s : State) : bool :=
  buttons_shown s && hasValidFiles s.

Definition combine_enabled (s : State) : bool :=
  buttons_shown s && analysisComplete s && negb (idMismatch s) &&
  match combinedResult s with Some _ => false | None => true end.

(** What the user does, with what the host answers during the handler's
    run. *)
Inductive Event :=
| FilesDropped (uuidv4 : nat -> string) (files : list File)
| AnalyzeClicked
| CombineClicked (h : Packager.Host)
| ResetClicked.

(** One handler run; a click on a disabled or hidden button does
    nothing. Each run ends before the next event is handled. *)
Definition step (localeCompare : string -> string -> Z) (s : State)
    (ev : Event) : State :=
  match ev with
  | FilesDropped uuidv4 files => handleFilesAdded localeCompare uuidv4 files s
  | AnalyzeClicked => if analyze_enabled s then handleAnalyze s else s
  | CombineClicked h => if combine_enabled s then handleCombine h s else s
  | ResetClicked => if buttons_shown s then handleReset s else s
  end.

(** The state of the freshly mounted component. *)
Definition mounted : State :=
  {| zipContents := [];
     analysisComplete := false;
     ui_error := None;
     analysisResults := [];
     idMismatch := false;
     combinedResult := None |}.

Definition run (localeCompare : string -> string -> Z) (evs : list Event) : State :=
  foldl (step localeCompare) mounted evs.

End Component.

(* ===================================================================== *)
(** ** Further vocabulary *)
(* ===================================================================== *)

Module Notions.
Import JsString Zip.


(** The errors an archive can raise while its log is read and accepted. *)
Definition archive_cause (cause : Error) : Prop :=
  cause = CorruptedZip \/ cause = SyntaxError \/
  exists first other, first ≠ other /\ cause = ChatIdMismatch first other.

(** An entry the packaging loop handles: its root-relative path and its
    bytes. *)
Definition packed_entry (rootPrefix : string) (zipEntry : JSZipObject)
  : option (string * Payload) :=
  (fun p => (p, data zipEntry)) <$> Packager.packed_path rootPrefix zipEntry.

(** The handled entries of all archives in processing order; the [n]-th
    of them meets the [n]-th call of [getTimestampFromPath]. *)
Definition packed_entries (contents : list ZipContent)
  : list (string * Payload) :=
  flat_map
    (fun content =>
       match originalFile content with
       | Some f => omap (packed_entry (rootPrefix content)) (default [] (archive f))
       | None => []
       end)
    contents.

(** [pathParts[0]] when [pathParts.length > 1]. *)
Definition top_folder (p : string) : option string :=
  let pathParts := split slash p in
  if 1 <? length pathParts then Some (hd "" pathParts) else None.

(** What the packaging loop maintains at a path [p] once it has handled
    the entries [seen]: nothing is kept for a path not met; otherwise the
    kept copy is the one of some handled entry [n] at that path, stored
    with the score of the [n]-th call, which no other copy of the path
    exceeds and no earlier copy reaches. *)
Definition ranked_at (h : Packager.Host) (seen : list (string * Payload))
    (fm : gmap string (string * Z)) (cz : gmap string Packager.Written)
    (p : string) : Prop :=
  match fm !! p with
  | None => cz !! p = None /\ p ∉ seen.*1
  | Some t =>
      exists n d,
        seen !! n = Some (p, d) /\
        t.2 = Packager.getTimestampFromPath h n p /\
        cz !! p = Some (Packager.Copied d) /\
        forall m d', seen !! m = Some (p, d') ->
          (Packager.getTimestampFromPath h m p <=
           Packager.getTimestampFromPath h n p)%Z /\
          (m < n -> (Packager.getTimestampFromPath h m p <
                     Packager.getTimestampFromPath h n p)%Z)
  end.

Definition ranked (h : Packager.Host) (seen : list (string * Payload))
    (st : Packager.Packing) : Prop :=
  Packager.clock st = length seen /\
  forall p, ranked_at h seen (Packager.fileMap st) (Packager.combinedZip st) p.

(** The folder set holds, once each, the first segments of the handled
    paths that lie inside a folder. *)
Definition foldered (seen : list string) (st : Packager.Packing) : Prop :=
  NoDup (Packager.folders st) /\
  forall d, d ∈ Packager.folders st <->
            exists p, p ∈ seen /\ top_folder p = Some d.

(** The root-relative path under which the second pass of [unzipFile]
    lists an entry; [None] for an entry it leaves out. *)
Definition listed (rootPrefix : string) (zipEntry : JSZipObject) : option string :=
  let relativePath := name zipEntry in
  if Inspector.skipped relativePath then None
  else if truthy rootPrefix then
    if negb (startsWith relativePath rootPrefix) then None
    else
      let adjustedPath := substring (String.length rootPrefix) relativePath in
      if negb (dir zipEntry) && truthy adjustedPath then Some adjustedPath
      else None
  else
    if negb (dir zipEntry) then Some relativePath else None.

(** [pathParts[0]] of a root-relative path. *)
Definition top_level (p : string) : string := hd "" (split slash p).

(** What the third pass maintains: the items carry distinct names, the
    set of processed names is the set of these names, and the empty name
    is not among them. *)
Definition indexed (st : Inspector.Summary) : Prop :=
  NoDup (map item_name (Inspector.items st)) /\
  (forall n, n ∈ Inspector.processedItems st <->
             n ∈ map item_name (Inspector.items st)) /\
  "" ∉ Inspector.processedItems st.

(** [JSZip.loadAsync] accepts the file. *)
Definition loadable (f : File) : bool :=
  match archive f with Some _ => true | None => false end.

(** An inspection result as [unzipFile] returns it for some file. *)
Definition inspected (localeCompare : string -> string -> Z) (f : File)
    (content : ZipContent) : Prop :=
  exists uuid zip,
    archive f = Some zip /\
    content = Inspector.inspect localeCompare uuid f zip.

(** What the component maintains between two handler runs: the listed
    archives come from loadable files; and once [analysisComplete] is
    set, there are at least two archives, all valid, the analysis of the
    listed archives runs to its end, and [idMismatch] is its verdict. *)
Definition settled (localeCompare : string -> string -> Z)
    (s : Combiner.State) : Prop :=
  Forall (fun c => exists f, inspected localeCompare f c) (Combiner.zipContents s) /\
  (Combiner.analysisComplete s = true ->
     Component.hasValidFiles s = true /\
     exists st,
       Combiner.analyse_loop Combiner.analysing0 (Combiner.zipContents s) = (st, None) /\
       Combiner.idMismatch s = Combiner.mismatch st).

(** The files of the two overlapping exports of [Examples]. *)
Definition first_file : File :=
  {| file_name := "first.zip";
     archive := Some
       [ Examples.json_file "result.json"
           (Examples.log 42 [Examples.message 1 None "one"; Examples.edited_two]);
         Examples.bytes_file "photos/a.jpg" "first copy" ] |}.

Definition second_file : File :=
  {| file_name := "second.zip";
     archive := Some
       [ Examples.json_file "result.json"
           (Examples.log 42 [Examples.plain_two; Examples.message 3 None "three"]);
         Examples.bytes_file "photos/a.jpg" "second copy" ] |}.

(** What the loop of [handleAnalyze] maintains besides [tracking]: a
    raised flag goes back to a result whose id is not the reference, and
    nothing is shown while the flag is down. *)
Definition exact (st : Combiner.Analysing) : Prop :=
  (Combiner.mismatch st = true ->
     exists a, a ∈ Combiner.results st /\
               Combiner.firstId st ≠ Some (Combiner.an_id a)) /\
  (Combiner.mismatch st = false -> Combiner.shown st = None).

(** *** A host collation in the manner of the usual locales *)

(** Letters are compared without regard to case first; among names that
    differ in case only, lowercase comes first. So ['a'.localeCompare('B')]
    is negative and [b.txt] sorts before [B.txt]. *)
Definition is_upper (c : ascii) : bool :=
  (65 <=? Ascii.nat_of_ascii c) && (Ascii.nat_of_ascii c <=? 90).

Definition fold_case (c : ascii) : ascii :=
  if is_upper c then Ascii.ascii_of_nat (Ascii.nat_of_ascii c + 32) else c.

Definition case_mark (c : ascii) : ascii :=
  if is_upper c then "1"%char else "0"%char.

Fixpoint map_chars (g : ascii -> ascii) (s : string) : string :=
  match s with
  | EmptyString => EmptyString
  | String c s' => String (g c) (map_chars g s')
  end.

(** The sort key of a name: its letters with case folded, then, after a
    separator below every character of a name, the case of each. *)
Definition collation_key (s : string) : string :=
  map_chars fold_case s +:+ String Ascii.zero (map_chars case_mark s).

Definition localeCompare_caseless (a b : string) : Z :=
  Inspector.localeCompare_lex (collation_key a) (collation_key b).

(** Three files whose names differ in case. *)
Definition mixed_case_export : JSZip :=
  [ Examples.plain_file "B.txt"; Examples.plain_file "b.txt";
    Examples.plain_file "a.txt" ].

(** *** Folder names a plain object answers to *)

(** [folderContents] is a plain object: asked for one of the names every
    object inherits from [Object.prototype] it answers with the inherited
    member, on which [push] throws and whose [length] is no file count.
    The inspection is modelled for archives without such a name at the
    top level under the root. *)
Definition Object_prototype : list string :=
  [ "constructor"; "__defineGetter__"; "__defineSetter__"; "hasOwnProperty";
    "__lookupGetter__"; "__lookupSetter__"; "isPrototypeOf";
    "propertyIsEnumerable"; "toString"; "valueOf"; "__proto__";
    "toLocaleString" ].

Definition inherited (k : string) : bool := bool_decide (k ∈ Object_prototype).

(** The root-relative path the second and third pass of [unzipFile] look
    at for an entry; [None] for an entry they pass over. *)
Definition touched (rootPrefix : string) (zipEntry : JSZipObject) : option string :=
  let relativePath := name zipEntry in
  if Inspector.skipped relativePath then None
  else if truthy rootPrefix then
    if startsWith relativePath rootPrefix then
      let adjustedPath := substring (String.length rootPrefix) relativePath in
      if truthy adjustedPath then Some adjustedPath else None
    else None
  else Some relativePath.

Definition own_names (zip : JSZip) : bool :=
  forallb
    (fun zipEntry =>
       match touched (Inspector.loc_rootPrefix (Inspector.locate zip)) zipEntry with
       | Some p => negb (inherited (top_level p))
       | None => true
       end)
    zip.

(** A file that cannot be opened, or whose archive has only names of its
    own at the top level. *)
Definition ordinary (f : File) : bool :=
  match archive f with
  | Some zip => own_names zip
  | None => true
  end.

Definition ordinary_event (ev : Component.Event) : bool :=
  match ev with
  | Component.FilesDropped _ files => forallb ordinary files
  | _ => true
  end.

End Notions.

(* ===================================================================== *)
(** * Properties *)
(* ===================================================================== *)

(** ** The sort returns a sorted rearrangement of its argument *)

Module JsArrayFacts.
Import JsArray.

Section Sort.
Context {A : Type} (compareFn : A -> A -> Z).
Local Abbreviation before := (JsArray.before compareFn).

Lemma insert_perm x l : insert compareFn x l ≡ₚ x :: l.
Proof.
  induction l as [|y l IH]; simpl; [done|].
  destruct (compareFn x y <=? 0)%Z; [done|].
  rewrite IH. apply perm_swap.
Qed.

Lemma sort_perm l : sort compareFn l ≡ₚ l.
Proof.
  induction l as [|x l IH]; simpl; [done|].
  rewrite insert_perm. by rewrite IH.
Qed.

Lemma sort_length l : length (sort compareFn l) = length l.
Proof. by rewrite sort_perm. Qed.

Lemma sort_elem x l : x ∈ sort compareFn l ↔ x ∈ l.
Proof. by rewrite sort_perm. Qed.

(** A comparator is consistent when it orders any two elements one way
    or the other, transitively. *)
Hypothesis total : forall a b, before a b \/ before b a.

Lemma insert_sorted x l :
  Sorted before l -> Sorted before (insert compareFn x l).
Proof.
  induction l as [|y l IH]; intros Hs; simpl.
  - repeat constructor.
  - destruct (Z.leb_spec (compareFn x y) 0) as [Hle|Hgt].
    + constructor; [done|]. by constructor.
    + apply Sorted_inv in Hs as [Hs Hhd].
      constructor; [by apply IH|].
      assert (before y x) as Hyx.
      { destruct (total x y) as [H|H]; [unfold before in H; lia|done]. }
      destruct l as [|z l]; simpl.
      * by constructor.
      * destruct (compareFn x z <=? 0)%Z; constructor; [done|].
        by apply HdRel_inv in Hhd.
Qed.

Lemma sort_sorted l : Sorted before (sort compareFn l).
Proof.
  induction l as [|x l IH]; simpl; [constructor|].
  by apply insert_sorted.
Qed.

Hypothesis trans : forall a b c, before a b -> before b c -> before a c.

Lemma sort_strongly_sorted l : StronglySorted before (sort compareFn l).
Proof.
  apply Sorted_StronglySorted; [|apply sort_sorted].
  intros a b c. apply trans.
Qed.
End Sort.

Lemma StronglySorted_impl {A} (R R' : A -> A -> Prop) l :
  (forall a b, R a b -> R' a b) -> StronglySorted R l -> StronglySorted R' l.
Proof.
  intros HR. induction 1 as [|a l Hl IH Ha]; constructor; [done|].
  eapply Forall_impl; [exact Ha|]. apply HR.
Qed.

End JsArrayFacts.

(** ** Strings: splitting at separators and joining back *)

Module JsStringFacts.
Import JsString.

Lemma append_cons c (a b : string) : String c a +:+ b = String c (a +:+ b).
Proof. done. Qed.

Lemma append_nil (b : string) : EmptyString +:+ b = b.
Proof. done. Qed.

Lemma append_assoc (a b c : string) : (a +:+ b) +:+ c = a +:+ (b +:+ c).
Proof.
  induction a as [|x a IH]; [done|]. by rewrite !append_cons, IH.
Qed.

Lemma length_append (a b : string) :
  String.length (a +:+ b) = String.length a + String.length b.
Proof.
  induction a as [|x a IH]; [done|]. rewrite append_cons. simpl. by rewrite IH.
Qed.

Lemma substring_append (a b : string) :
  substring (String.length a) (a +:+ b) = b.
Proof.
  induction a as [|x a IH]; [by destruct b|]. by rewrite append_cons.
Qed.

Lemma startsWith_append (a b : string) : startsWith (a +:+ b) a = true.
Proof.
  unfold startsWith. induction a as [|x a IH]; [by destruct b|].
  rewrite append_cons. simpl.
  destruct (Ascii.ascii_dec x x); [done|congruence].
Qed.

Lemma split_nonempty sep s : split sep s ≠ [].
Proof.
  destruct s as [|c s]; simpl; [done|].
  destruct (Ascii.eqb c sep); [done|].
  by destruct (split sep s).
Qed.

Lemma split_app_sep sep q r :
  split sep (q +:+ String sep r) = split sep q ++ split sep r.
Proof.
  induction q as [|c q IH].
  - rewrite append_nil. simpl. by rewrite Ascii.eqb_refl.
  - rewrite append_cons. simpl.
    destruct (Ascii.eqb c sep); [by rewrite IH|].
    rewrite IH. pose proof (split_nonempty sep q) as Hne.
    by destruct (split sep q).
Qed.

Lemma concat_cons_cons sep h h' t :
  String.concat sep (h :: h' :: t) = h +:+ sep +:+ String.concat sep (h' :: t).
Proof. done. Qed.

Lemma join_split sep s :
  join (String sep EmptyString) (split sep s) = s.
Proof.
  unfold join. induction s as [|c s IH]; simpl; [done|].
  pose proof (split_nonempty sep s) as Hnil.
  destruct (Ascii.eqb_spec c sep) as [->|Hne].
  - destruct (split sep s) as [|h t]; [done|].
    by rewrite concat_cons_cons, IH.
  - destruct (split sep s) as [|h [|h' t]]; [done| |].
    + simpl in *. by rewrite IH.
    + rewrite concat_cons_cons. rewrite concat_cons_cons in IH.
      by rewrite append_cons, IH.
Qed.

(** A string without the separator is a single part. *)
Lemma split_no_sep sep s :
  includes s (String sep EmptyString) = false -> split sep s = [s].
Proof.
  induction s as [|c s IH]; simpl; [done|].
  destruct (Ascii.ascii_dec sep c) as [->|Hne].
  - by destruct s.
  - intros Hinc. destruct (Ascii.eqb_spec c sep) as [->|_]; [done|].
    rewrite IH; [done|].
    destruct s; simpl in *; done.
Qed.

Lemma substring_rest n s : String.substring 0 n s +:+ substring n s = s.
Proof.
  revert s. induction n as [|n IH]; intros [|c s]; simpl; try done.
  by rewrite append_cons, IH.
Qed.

(** [endsWith] finds the suffix at the end. *)
Lemma endsWith_split s suf :
  endsWith s suf = true -> exists q, s = q +:+ suf.
Proof.
  unfold endsWith. intros [_ Heq%String.eqb_eq]%andb_prop.
  set (k := String.length s - String.length suf) in *.
  exists (String.substring 0 k s).
  rewrite <- Heq. by rewrite substring_rest.
Qed.

End JsStringFacts.

(** ** unzipFile: locating the message log *)

Module LocateFacts.
Import JsString Zip Inspector JsStringFacts Examples.

Lemma prefix_of_nested q :
  prefix_of (q +:+ "/result.json") = q +:+ "/".
Proof.
  unfold prefix_of, JsArray.pop.
  change "/result.json" with (String slash "result.json").
  rewrite split_app_sep.
  change (split slash "result.json") with ["result.json"].
  rewrite removelast_last.
  unfold slash. by rewrite (join_split "/"%char q).
Qed.

Lemma locate_step_other st e :
  candidate e = false -> locate_step st e = st.
Proof.
  unfold candidate, locate_step.
  destruct (skipped (name e)); [done|].
  destruct (dir e); [done|].
  by destruct (is_result_json (name e)).
Qed.

Lemma locate_step_candidate st e :
  candidate e = true ->
  locate_step st e =
    {| loc_hasResultsJson := true;
       loc_resultJsonPath := name e;
       loc_rootPrefix :=
         if negb (String.eqb (name e) "result.json")
         then prefix_of (name e) else loc_rootPrefix st |}.
Proof.
  unfold candidate, locate_step.
  destruct (skipped (name e)); [done|].
  destruct (dir e); [done|].
  by destruct (is_result_json (name e)).
Qed.

Lemma locate_candidates st content :
  foldl locate_step st content = foldl locate_step st (candidates content).
Proof.
  revert st. induction content as [|e content IH]; intros st; [done|].
  unfold candidates. simpl. destruct (candidate e) eqn:He; simpl.
  - apply IH.
  - rewrite locate_step_other by done. apply IH.
Qed.

Lemma candidates_all content : Forall (fun e => candidate e = true) (candidates content).
Proof.
  unfold candidates. apply List.Forall_forall. intros e He.
  apply filter_In in He. tauto.
Qed.

(** Bare matches leave the root prefix alone. *)
Lemma locate_bare st ms :
  Forall (fun e => candidate e = true) ms ->
  Forall (fun e => name e = "result.json") ms ->
  loc_rootPrefix (foldl locate_step st ms) = loc_rootPrefix st.
Proof.
  revert st. induction ms as [|e ms IH]; intros st Hc Hb; [done|].
  apply Forall_cons in Hc as [He Hc]. apply Forall_cons in Hb as [Hn Hb].
  simpl. rewrite IH by done.
  rewrite locate_step_candidate by done. simpl. by rewrite Hn.
Qed.

Lemma nested_candidate e :
  candidate e = true -> name e ≠ "result.json" ->
  exists q, name e = q +:+ "/result.json".
Proof.
  unfold candidate, is_result_json.
  intros [_ H]%andb_prop Hne.
  apply orb_prop in H as [H%String.eqb_eq|H]; [done|].
  by apply endsWith_split.
Qed.

Lemma locate_last st ms e :
  candidate e = true ->
  foldl locate_step st (ms ++ [e]) =
    {| loc_hasResultsJson := true;
       loc_resultJsonPath := name e;
       loc_rootPrefix :=
         if negb (String.eqb (name e) "result.json")
         then prefix_of (name e)
         else loc_rootPrefix (foldl locate_step st ms) |}.
Proof.
  intros He. rewrite foldl_app. simpl. by apply locate_step_candidate.
Qed.

(** C3 (amended). Among the entries that match the message-log name
    (equal to [result.json], or ending in [/result.json]) the LAST one in
    enumeration order wins: it sets [hasResultsJson] and becomes
    [resultJsonPath]. If that entry is not the bare file name, [rootPrefix]
    is everything before its last separator plus a trailing separator.
    When every match is the bare file name, and when there is no match at
    all, [rootPrefix] is empty. *)
Theorem last_log_match_wins lc uuid f (content : JSZip) :
  let zc := inspect lc uuid f content in
  (candidates content = [] ->
     hasResultsJson zc = false /\ resultJsonPath zc = "" /\ rootPrefix zc = "") /\
  (forall e, last (candidates content) = Some e ->
     hasResultsJson zc = true /\
     resultJsonPath zc = name e /\
     (name e ≠ "result.json" ->
        exists q, name e = q +:+ "/result.json" /\ rootPrefix zc = q +:+ "/") /\
     (Forall (fun e' => name e' = "result.json") (candidates content) ->
        rootPrefix zc = "")).
Proof.
  simpl. unfold locate. rewrite locate_candidates.
  pose proof (candidates_all content) as Hall.
  split.
  - by intros ->.
  - intros e [ms Hms]%last_Some. rewrite Hms in *.
    apply Forall_app in Hall as [Hms_c He]. apply Forall_cons in He as [He _].
    rewrite locate_last by done. simpl.
    repeat split.
    + intros Hne. destruct (nested_candidate e He Hne) as [q Hq].
      exists q. split; [done|].
      destruct (String.eqb_spec (name e) "result.json") as [|_]; [done|].
      simpl. rewrite Hq. apply prefix_of_nested.
    + intros [Hb He']%Forall_app. apply Forall_cons in He' as [Hn _].
      rewrite Hn. simpl. by rewrite locate_bare.
Qed.

Lemma last_log_match_wins_witness :
  let zc := inspect localeCompare_lex "" some_file nested_export in
  hasResultsJson zc = true /\
  resultJsonPath zc = "export/chat/result.json" /\
  exists q, "export/chat/result.json" = q +:+ "/result.json" /\
            rootPrefix zc = q +:+ "/".
Proof.
  destruct (proj2 (last_log_match_wins localeCompare_lex "" some_file nested_export)
              (plain_file "export/chat/result.json") eq_refl)
    as (Hhas & Hpath & Hnested & _).
  split; [exact Hhas|]. split; [exact Hpath|].
  apply Hnested. discriminate.
Defined.

(** A bare [result.json] enumerated after a nested one becomes the log
    path, while the root prefix stays that of the nested one. *)
Lemma bare_log_after_nested :
  let zc := inspect localeCompare_lex "" some_file
              [plain_file "a/result.json"; plain_file "result.json"] in
  resultJsonPath zc = "result.json" /\ rootPrefix zc = "a/".
Proof. by vm_compute. Qed.

(** [unzipFile] is [inspect] on the entries of a readable archive. *)
Lemma unzipFile_Ok lc uuid f zc :
  unzipFile lc uuid f = Ok zc <->
  exists content, archive f = Some content /\ zc = inspect lc uuid f content.
Proof.
  unfold unzipFile, loadAsync, mbind, mret, result_bind, result_ret, Zip.bind.
  destruct (archive f) as [content|]; split.
  - intros [= <-]. by exists content.
  - by intros (? & [= <-] & ->).
  - done.
  - by intros (? & [=] & _).
Qed.

(** C3, as stated, does not hold: with two candidate paths the first one
    does not win. *)
Lemma first_log_match_does_not_win :
  ~ (forall lc uuid f (content : JSZip) e,
       head (candidates content) = Some e ->
       resultJsonPath (inspect lc uuid f content) = name e /\
       rootPrefix (inspect lc uuid f content) =
         if String.eqb (name e) "result.json" then "" else prefix_of (name e)).
Proof.
  intros H.
  destruct (H localeCompare_lex "" some_file two_logs (plain_file "a/result.json") eq_refl)
    as [Hpath _].
  vm_compute in Hpath. discriminate.
Qed.

End LocateFacts.

(** ** The insertion-ordered map *)

Module JsMapFacts.
Import JsMap.

Section Map.
Context {K V : Type} `{EqDecision K}.
Implicit Types (m : list (K * V)) (k : K) (v : V).



Lemma has_keys k m : has k m = true <-> k ∈ keys m.
Proof.
  unfold has. induction m as [|[k' v'] m IH]; simpl.
  - split; [done|]. by intros ?%elem_of_nil.
  - rewrite elem_of_cons.
    destruct (bool_decide_reflect (k' = k)) as [->|Hne]; [tauto|].
    rewrite IH. split; [tauto|]. intros [->|?]; done.
Qed.

Lemma keys_set k v m :
  keys (set k v m) = if has k m then keys m else keys m ++ [k].
Proof.
  unfold has. induction m as [|[k' v'] m IH]; simpl; [done|].
  destruct (bool_decide_reflect (k' = k)) as [->|Hne]; simpl; [done|].
  rewrite IH. by destruct (get k m).
Qed.

Lemma length_values m : length (values m) = length (keys m).
Proof. unfold values, keys. by rewrite !length_map. Qed.
End Map.

End JsMapFacts.

(** ** combineResultJsonWithStats: reading the logs *)

Module ParseFacts.
Import JsString Zip Merge.


Lemma read_logs_app l1 l2 :
  read_logs (l1 ++ l2) =
    (a ← read_logs l1; b ← read_logs l2; Ok (a ++ b)).
Proof.
  induction l1 as [|c l1 IH]; simpl.
  - unfold_result. by destruct (read_logs l2).
  - unfold_result. destruct (read_log c) as [o|]; [|done].
    rewrite IH. destruct (read_logs l1); [|done].
    destruct (read_logs l2); [|done]. by destruct o.
Qed.

Lemma total_count_app a b :
  total_count (a ++ b) = (total_count a + total_count b)%Z.
Proof.
  induction a as [|r a IH]; simpl; [done|].
  unfold total_count in *. simpl. rewrite IH. lia.
Qed.

(** What one turn of the loop does, by what the archive's log reads as. *)
Lemma parse_step_skip st c :
  read_log c = Ok None -> parse_step st c = Ok st.
Proof. intros H. unfold parse_step. rewrite H. done. Qed.

Lemma parse_step_throw st c e :
  read_log c = Throw e -> parse_step st c = Throw (ErrorProcessing (zc_name c) e).
Proof. intros H. unfold parse_step. rewrite H. done. Qed.

Lemma parse_step_accept st c r :
  read_log c = Ok (Some r) ->
  parse_step st c =
    match accept st r with
    | Ok st' => Ok st'
    | Throw e => Throw (ErrorProcessing (zc_name c) e)
    end.
Proof. intros H. unfold parse_step. rewrite H. done. Qed.

Lemma accept_Ok st r st' :
  accept st r = Ok st' ->
  resultJsons st' = resultJsons st ++ [r] /\
  totalInputMessages st' = (totalInputMessages st + message_count r)%Z /\
  firstChatId st' = Some (chat_id r) /\
  (forall f, firstChatId st = Some f -> f = chat_id r).
Proof.
  unfold accept. destruct (firstChatId st) as [f|] eqn:Hf.
  - destruct (Z.eqb_spec f (chat_id r)) as [->|Hne]; simpl; [|done].
    intros [= <-]. simpl. repeat split. by intros ? [= <-].
  - intros [= <-]. simpl. repeat split. done.
Qed.

Lemma accept_same st r :
  firstChatId st = Some (chat_id r) -> exists st', accept st r = Ok st'.
Proof.
  intros Hf. unfold accept. rewrite Hf, Z.eqb_refl. simpl. eauto.
Qed.

Lemma accept_fresh st r :
  firstChatId st = None -> exists st', accept st r = Ok st'.
Proof. intros Hf. unfold accept. rewrite Hf. eauto. Qed.


(** A successful run has read every log, found one chat id in all of
    them, and has accumulated the logs and their counts in order. *)
Lemma parse_loop_Ok st contents st' :
  parse_loop st contents = Ok st' ->
  exists logs,
    read_logs contents = Ok logs /\
    resultJsons st' = resultJsons st ++ logs /\
    totalInputMessages st' = (totalInputMessages st + total_count logs)%Z /\
    firstChatId st' = reference_id (firstChatId st) logs /\
    (forall f, firstChatId st' = Some f -> Forall (fun r => chat_id r = f) logs).
Proof.
  revert st. induction contents as [|c contents IH]; intros st; simpl.
  - intros [= <-]. exists []. rewrite app_nil_r. unfold total_count. simpl.
    repeat split; try done; try lia. by destruct (firstChatId st).
  - destruct (read_log c) as [[r|]|e] eqn:Hread.
    + rewrite (parse_step_accept _ _ _ Hread).
      destruct (accept st r) as [st1|] eqn:Hacc; unfold_result; [|done].
      intros (logs & Hlogs & Hrs & Htot & Hfirst & Hall)%IH.
      apply accept_Ok in Hacc as (Hrs1 & Htot1 & Hf1 & Hsame).
      exists (r :: logs). rewrite Hlogs.
      rewrite Hf1 in Hfirst. simpl in Hfirst.
      repeat split.
      * by rewrite Hrs, Hrs1, <- app_assoc.
      * rewrite Htot, Htot1. unfold total_count. simpl. lia.
      * rewrite Hfirst. destruct (firstChatId st) as [f|] eqn:Hf; simpl; [|done].
        by rewrite (Hsame f).
      * intros f Hf. constructor; [congruence|by apply Hall].
    + rewrite (parse_step_skip _ _ Hread). unfold_result.
      intros (logs & Hlogs & Hrs & Htot & Hfirst & Hall)%IH.
      exists logs. by rewrite Hlogs.
    + rewrite (parse_step_throw _ _ _ Hread). by unfold_result.
Qed.

(** Conversely, logs that all read and agree with the reference id are
    accepted. *)
Lemma parse_loop_run st contents logs :
  read_logs contents = Ok logs ->
  (forall f, reference_id (firstChatId st) logs = Some f ->
             Forall (fun r => chat_id r = f) logs) ->
  exists st', parse_loop st contents = Ok st'.
Proof.
  revert st logs. induction contents as [|c contents IH]; intros st logs; simpl.
  - eauto.
  - destruct (read_log c) as [[r|]|e] eqn:Hread; unfold_result; [| |done].
    + destruct (read_logs contents) as [logs'|] eqn:Hlogs; [|done].
      intros [= <-] Hagree.
      rewrite (parse_step_accept _ _ _ Hread).
      assert (exists st1, accept st r = Ok st1) as [st1 Hacc].
      { destruct (firstChatId st) as [f|] eqn:Hf.
        - apply accept_same. specialize (Hagree f eq_refl).
          apply Forall_cons in Hagree as [-> _]. done.
        - by apply accept_fresh. }
      rewrite Hacc. apply (IH st1 logs'); [done|].
      apply accept_Ok in Hacc as (_ & _ & Hf1 & Hsame).
      rewrite Hf1. simpl. intros f [= <-].
      destruct (firstChatId st) as [f|] eqn:Hf; simpl in Hagree.
      * specialize (Hagree f eq_refl).
        apply Forall_cons in Hagree as [<- Hagree]. done.
      * specialize (Hagree _ eq_refl).
        by apply Forall_cons in Hagree as [_ Hagree].
    + destruct (read_logs contents) as [logs'|] eqn:Hlogs; [|done].
      intros [= <-] Hagree.
      rewrite (parse_step_skip _ _ Hread). by apply (IH st logs').
Qed.


End ParseFacts.

(** ** combineResultJsonWithStats: deduplication by message id *)

Module DedupFacts.
Import JsString Zip Merge JsMapFacts.


Lemma all_messages_app a b :
  all_messages (a ++ b) = all_messages a ++ all_messages b.
Proof. unfold all_messages. apply flat_map_app. Qed.

Lemma dedup_log_fold m rs :
  foldl dedup_log m rs = foldl dedup_message m (all_messages rs).
Proof.
  revert m. induction rs as [|r rs IH]; intros m; [done|].
  change (all_messages (r :: rs))
    with (default [] (messages r) ++ all_messages rs).
  rewrite foldl_app. simpl. rewrite IH. unfold dedup_log.
  by destruct (messages r).
Qed.

Lemma dedup_fold rs : dedup rs = foldl dedup_message [] (all_messages rs).
Proof. apply dedup_log_fold. Qed.

Lemma dedup_app a b :
  dedup (a ++ b) = foldl dedup_message (dedup a) (all_messages b).
Proof. by rewrite !dedup_fold, all_messages_app, foldl_app. Qed.




Lemma keys_dedup_message m a :
  JsMap.keys (dedup_message m a) =
    if JsMap.has (msg_id a) m then JsMap.keys m else JsMap.keys m ++ [msg_id a].
Proof.
  unfold dedup_message.
  destruct (JsMap.has (msg_id a) m) eqn:Hhas; simpl.
  - match goal with |- context [if ?c then _ else _] => destruct c end; [|done].
    by rewrite keys_set, Hhas.
  - by rewrite keys_set, Hhas.
Qed.


(** Keys are the ids of the records they hold, without repetition. *)
Lemma keyed_set m a : keyed m -> keyed (JsMap.set (msg_id a) a m).
Proof.
  unfold keyed. induction 1 as [|[k v] m Hk Hm IH]; simpl.
  - by repeat constructor.
  - destruct (bool_decide (k = msg_id a)); by constructor.
Qed.

Lemma keyed_dedup_message m a : keyed m -> keyed (dedup_message m a).
Proof.
  intros Hm. unfold dedup_message.
  match goal with |- context [if ?c then _ else _] => destruct c end; [|done].
  by apply keyed_set.
Qed.

Lemma nodup_dedup_message m a :
  NoDup (JsMap.keys m) -> NoDup (JsMap.keys (dedup_message m a)).
Proof.
  intros Hm. rewrite keys_dedup_message.
  destruct (JsMap.has (msg_id a) m) eqn:Hhas; [done|].
  apply NoDup_app. split; [done|]. split; [|apply NoDup_singleton].
  intros k Hk ->%list_elem_of_singleton.
  apply has_keys in Hk. congruence.
Qed.

Lemma foldl_invariant {A B} (P : A -> Prop) (f : A -> B -> A) l a :
  (forall a b, P a -> P (f a b)) -> P a -> P (foldl f a l).
Proof.
  intros Hstep. revert a. induction l as [|b l IH]; intros a Ha; [done|].
  simpl. by apply IH, Hstep.
Qed.

Lemma dedup_keyed rs : keyed (dedup rs).
Proof.
  rewrite dedup_fold. apply foldl_invariant; [apply keyed_dedup_message|].
  constructor.
Qed.

Lemma dedup_nodup rs : NoDup (JsMap.keys (dedup rs)).
Proof.
  rewrite dedup_fold.
  apply (foldl_invariant (fun m => NoDup (JsMap.keys m)));
    [apply nodup_dedup_message|constructor].
Qed.

Lemma values_ids m : keyed m -> map msg_id (JsMap.values m) = JsMap.keys m.
Proof.
  unfold keyed, JsMap.values, JsMap.keys.
  induction 1 as [|[k v] m Hk Hm IH]; simpl in *; [done|].
  by rewrite IH, Hk.
Qed.

(** Ids already in the map add no key; every id met ends up as a key. *)
Lemma keys_seen m l :
  Forall (fun a => msg_id a ∈ JsMap.keys m) l ->
  JsMap.keys (foldl dedup_message m l) = JsMap.keys m.
Proof.
  revert m. induction l as [|a l IH]; intros m Hl; [done|].
  apply Forall_cons in Hl as [Ha Hl]. simpl.
  assert (JsMap.keys (dedup_message m a) = JsMap.keys m) as Hk.
  { rewrite keys_dedup_message. apply has_keys in Ha. by rewrite Ha. }
  rewrite IH; [done|]. by rewrite Hk.
Qed.

Lemma keys_grow m a k :
  k ∈ JsMap.keys m -> k ∈ JsMap.keys (dedup_message m a).
Proof.
  intros Hk. rewrite keys_dedup_message.
  destruct (JsMap.has (msg_id a) m); [done|]. apply elem_of_app. by left.
Qed.

Lemma keys_met m l :
  Forall (fun a => msg_id a ∈ JsMap.keys (foldl dedup_message m l)) l.
Proof.
  induction l as [|a l IH] using rev_ind; [constructor|].
  rewrite foldl_app. simpl. apply Forall_app. split.
  - eapply Forall_impl; [exact IH|]. intros b Hb. by apply keys_grow.
  - constructor; [|constructor]. rewrite keys_dedup_message.
    destruct (JsMap.has (msg_id a) (foldl dedup_message m l)) eqn:Hhas.
    + by apply has_keys.
    + apply elem_of_app. right. by apply list_elem_of_singleton.
Qed.

Lemma keys_bound m l :
  length (JsMap.keys (foldl dedup_message m l)) <= length (JsMap.keys m) + length l.
Proof.
  revert m. induction l as [|a l IH]; intros m; simpl; [lia|].
  etransitivity; [apply IH|]. rewrite keys_dedup_message.
  destruct (JsMap.has (msg_id a) m); rewrite ?length_app; simpl; lia.
Qed.

(** Merging the logs a second time changes no key. *)
Lemma keys_dedup_twice rs :
  JsMap.keys (dedup (rs ++ rs)) = JsMap.keys (dedup rs).
Proof.
  rewrite dedup_app. apply keys_seen. rewrite dedup_fold. apply keys_met.
Qed.

Lemma total_count_all rs :
  total_count rs = Z.of_nat (length (all_messages rs)).
Proof.
  induction rs as [|r rs IH]; [done|].
  change (all_messages (r :: rs))
    with (default [] (messages r) ++ all_messages rs).
  rewrite length_app. unfold total_count in *. simpl. rewrite IH.
  unfold message_count. destruct (messages r); simpl; lia.
Qed.

(** The merged log never has more records than were read. *)
Lemma unique_le_total rs :
  (Z.of_nat (length (JsMap.keys (dedup rs))) <= total_count rs)%Z.
Proof.
  rewrite total_count_all, dedup_fold.
  pose proof (keys_bound [] (all_messages rs)) as H. simpl in H. lia.
Qed.

End DedupFacts.

(** ** combineResultJsonWithStats: the merged log and its statistics *)

Module MergeFacts.
Import JsString Zip Merge JsMapFacts JsArrayFacts ParseFacts DedupFacts Examples.

Lemma compareIds_total a b :
  JsArray.before compareIds a b \/ JsArray.before compareIds b a.
Proof. unfold JsArray.before, compareIds. lia. Qed.

Lemma compareIds_trans a b c :
  JsArray.before compareIds a b -> JsArray.before compareIds b c ->
  JsArray.before compareIds a c.
Proof. unfold JsArray.before, compareIds. lia. Qed.

(** What a successful call has computed. *)
Lemma combine_Ok contents r :
  combineResultJsonWithStats contents = Ok r ->
  exists st,
    contents ≠ [] /\
    parse_loop parsed0 contents = Ok st /\
    resultJsons st ≠ [] /\
    cr_messages (buffer r) =
      JsArray.sort compareIds (JsMap.values (dedup (resultJsons st))) /\
    cr_id (buffer r) = firstChatId st /\
    totalMessages r = Z.of_nat (length (cr_messages (buffer r))) /\
    duplicateMessages r =
      Z.max 0 (totalInputMessages st - totalMessages r).
Proof.
  unfold combineResultJsonWithStats.
  destruct contents as [|c contents]; [done|].
  change (length (c :: contents) =? 0) with false. cbv iota.
  unfold_result.
  destruct (parse_loop parsed0 (c :: contents)) as [st|]; [|done].
  destruct (resultJsons st) as [|r0 rs] eqn:Hrs; [done|].
  change (length (r0 :: rs) =? 0) with false. cbv iota.
  intros [= <-]. exists st. rewrite Hrs. simpl. done.
Qed.

Lemma combine_run contents st :
  contents ≠ [] ->
  parse_loop parsed0 contents = Ok st ->
  resultJsons st ≠ [] ->
  exists r, combineResultJsonWithStats contents = Ok r.
Proof.
  intros Hc Hst Hrs. unfold combineResultJsonWithStats.
  destruct contents as [|c contents]; [done|].
  change (length (c :: contents) =? 0) with false. cbv iota.
  rewrite Hst. unfold_result.
  destruct (resultJsons st) as [|r0 rs]; [done|]. simpl. eauto.
Qed.

Lemma sorted_ids (l : list TelegramMessage) :
  StronglySorted (JsArray.before compareIds) l ->
  StronglySorted Z.le (map msg_id l).
Proof.
  induction 1 as [|a l Hl IH Ha]; simpl; constructor; [done|].
  apply Forall_map. eapply Forall_impl; [exact Ha|].
  intros b Hb. unfold JsArray.before, compareIds in Hb. simpl. lia.
Qed.

(** The sorted values of the map: one record per id, ids ascending. *)
Lemma merged_ids rs :
  let merged := JsArray.sort compareIds (JsMap.values (dedup rs)) in
  NoDup (map msg_id merged) /\ StronglySorted Z.le (map msg_id merged).
Proof.
  simpl. split.
  - rewrite (sort_perm compareIds).
    rewrite values_ids by apply dedup_keyed. apply dedup_nodup.
  - apply sorted_ids, sort_strongly_sorted.
    + apply compareIds_total.
    + apply compareIds_trans.
Qed.

(** C2. Whenever the merge returns, the ids in the merged log's
    [messages] are pairwise different and in ascending order. *)
Theorem merged_ids_unique_and_ascending contents r :
  combineResultJsonWithStats contents = Ok r ->
  NoDup (map msg_id (cr_messages (buffer r))) /\
  StronglySorted Z.le (map msg_id (cr_messages (buffer r))).
Proof.
  intros (st & _ & _ & _ & Hmsgs & _)%combine_Ok. rewrite Hmsgs.
  apply merged_ids.
Qed.

Lemma merged_ids_unique_and_ascending_witness :
  exists r,
    combineResultJsonWithStats [first_export; second_export] = Ok r /\
    NoDup (map msg_id (cr_messages (buffer r))) /\
    StronglySorted Z.le (map msg_id (cr_messages (buffer r))).
Proof.
  eexists. split; [reflexivity|].
  apply (merged_ids_unique_and_ascending [first_export; second_export]).
  reflexivity.
Defined.

(** The scenario of two overlapping exports: ids 1 and 2 (edited) in the
    first, 2 and 3 in the second. *)
Lemma overlapping_exports_merge :
  exists r,
    combineResultJsonWithStats [first_export; second_export] = Ok r /\
    cr_messages (buffer r) =
      [message 1 None "one"; edited_two; message 3 None "three"] /\
    cr_id (buffer r) = Some 42%Z /\
    totalMessages r = 3%Z /\ duplicateMessages r = 1%Z.
Proof. eexists. split; [reflexivity|]. by vm_compute. Qed.



Lemma length_merged rs :
  length (JsArray.sort compareIds (JsMap.values (dedup rs))) =
  length (JsMap.keys (dedup rs)).
Proof. by rewrite sort_length, length_values. Qed.

(** C4. [duplicateMessages] is [max(0, totalInputMessages -
    uniqueMessageCount)]: [uniqueMessageCount] is the length of the merged
    sequence, [totalInputMessages] the sum of the message counts of the
    logs read, and the result is never negative. *)
Theorem duplicates_removed_clamped contents r :
  combineResultJsonWithStats contents = Ok r ->
  exists st logs,
    parse_loop parsed0 contents = Ok st /\
    read_logs contents = Ok logs /\
    totalInputMessages st = total_count logs /\
    totalMessages r = Z.of_nat (length (cr_messages (buffer r))) /\
    duplicateMessages r =
      Z.max 0 (totalInputMessages st - totalMessages r) /\
    (0 <= duplicateMessages r)%Z.
Proof.
  intros (st & _ & Hst & _ & _ & _ & Hunique & Hdup)%combine_Ok.
  destruct (parse_loop_Ok _ _ _ Hst) as (logs & Hlogs & _ & Htot & _).
  exists st, logs.
  split; [done|]. split; [done|].
  split; [rewrite Htot; simpl; lia|].
  split; [done|]. split; [done|].
  rewrite Hdup. lia.
Qed.

Lemma duplicates_removed_clamped_witness :
  exists r,
    combineResultJsonWithStats [first_export; second_export] = Ok r /\
    totalMessages r = 3%Z /\ duplicateMessages r = 1%Z.
Proof.
  eexists. split; [reflexivity|].
  destruct (duplicates_removed_clamped [first_export; second_export] _ eq_refl)
    as (st & logs & Hst & _ & _ & Hunique & Hdup & _).
  injection Hst as <-. split; [exact Hunique|exact Hdup].
Defined.

(** C6 (amended). If merging a set succeeds, merging the set supplied
    twice succeeds with the same [uniqueMessageCount], and its
    [duplicateMessages] is the original set's total input message count
    plus the duplicates the single merge already removed; it equals the
    original total exactly when the single merge removed none. *)
Theorem doubled_merge contents r :
  combineResultJsonWithStats contents = Ok r ->
  exists logs r2,
    read_logs contents = Ok logs /\
    combineResultJsonWithStats (contents ++ contents) = Ok r2 /\
    totalMessages r2 = totalMessages r /\
    duplicateMessages r2 = (total_count logs + duplicateMessages r)%Z /\
    (duplicateMessages r2 = total_count logs <-> duplicateMessages r = 0%Z).
Proof.
  intros (st & Hne & Hst & Hrs & Hmsgs & _ & Hunique & Hdup)%combine_Ok.
  destruct (parse_loop_Ok _ _ _ Hst) as (logs & Hlogs & Hst_logs & Htot & Hfirst & Hall).
  simpl in Hst_logs, Htot, Hfirst.
  assert (read_logs (contents ++ contents) = Ok (logs ++ logs)) as Hlogs2.
  { rewrite read_logs_app, Hlogs. done. }
  assert (exists st2, parse_loop parsed0 (contents ++ contents) = Ok st2) as [st2 Hst2].
  { apply (parse_loop_run parsed0 _ (logs ++ logs) Hlogs2).
    intros f Hf. simpl in Hf.
    destruct logs as [|r0 logs]; [by rewrite Hst_logs in Hrs|].
    simpl in Hf. apply Forall_app. rewrite Hfirst in Hall. simpl in Hall.
    split; by apply Hall. }
  destruct (combine_run (contents ++ contents) st2) as [r2 Hr2]; [|done| |].
  { by destruct contents. }
  { destruct (parse_loop_Ok _ _ _ Hst2) as (logs2 & Hl2 & Hrs2 & _).
    rewrite Hlogs2 in Hl2. injection Hl2 as <-. simpl in Hrs2. rewrite Hrs2.
    destruct logs; [by rewrite Hst_logs in Hrs|done]. }
  exists logs, r2. split; [done|]. split; [done|].
  destruct (combine_Ok _ _ Hr2) as (st2' & _ & Hst2' & _ & Hmsgs2 & _ & Hunique2 & Hdup2).
  rewrite Hst2 in Hst2'. injection Hst2' as <-.
  destruct (parse_loop_Ok _ _ _ Hst2) as (logs2 & Hl2 & Hrs2 & Htot2 & _).
  rewrite Hlogs2 in Hl2. injection Hl2 as <-. simpl in Hrs2, Htot2.
  rewrite total_count_app in Htot2.
  assert (totalMessages r2 = totalMessages r) as Hsame.
  { rewrite Hunique, Hunique2, Hmsgs, Hmsgs2, Hrs2, Hst_logs.
    by rewrite !length_merged, keys_dedup_twice. }
  assert (totalMessages r <= total_count logs)%Z as Hle.
  { rewrite Hunique, Hmsgs, Hst_logs, length_merged. apply unique_le_total. }
  assert (0 <= totalMessages r)%Z by (rewrite Hunique; lia).
  split; [done|]. rewrite Hdup2, Hdup, Hsame, Htot2, Htot. lia.
Qed.

Lemma doubled_merge_witness :
  exists r2,
    combineResultJsonWithStats
      ([first_export; second_export] ++ [first_export; second_export]) = Ok r2 /\
    totalMessages r2 = 3%Z /\
    duplicateMessages r2 = (4 + 1)%Z.
Proof.
  destruct (doubled_merge [first_export; second_export] _ eq_refl)
    as (logs & r2 & Hlogs & Hr2 & Hunique & Hdup & _).
  injection Hlogs as <-.
  exists r2. split; [exact Hr2|]. split; [exact Hunique|exact Hdup].
Defined.

(** C6, as stated, does not hold: when the set already contains a
    duplicate, the doubled merge removes more records than the set's
    total message count, whether that is taken before or after
    deduplication. *)
Lemma doubled_merge_exceeds_total :
  ~ (forall contents r r2 logs,
       combineResultJsonWithStats contents = Ok r ->
       combineResultJsonWithStats (contents ++ contents) = Ok r2 ->
       read_logs contents = Ok logs ->
       duplicateMessages r2 = total_count logs \/
       duplicateMessages r2 = totalMessages r).
Proof.
  intros H.
  destruct (H [first_export; second_export] _ _ _ eq_refl eq_refl eq_refl)
    as [Hd|Hd]; vm_compute in Hd; discriminate.
Qed.



End MergeFacts.

(** ** combineZipContents *)

Module PackagerFacts.
Import JsString Zip Merge Packager ParseFacts MergeFacts Examples.

(** An output container means the merge of the valid archives went
    through. *)
Lemma combineZipContents_Ok h contents out :
  combineZipContents h contents = Ok out ->
  exists st stats,
    pack_loop h packing0 (List.filter valid contents) = Ok st /\
    combineResultJsonWithStats (List.filter valid contents) = Ok stats /\
    blob out = <["result.json" := Serialized (buffer stats)]> (combinedZip st) /\
    out_totalFiles out = totalFiles st.
Proof.
  unfold combineZipContents.
  destruct (length (List.filter valid contents) =? 0); [done|].
  unfold_result.
  destruct (pack_loop h packing0 (List.filter valid contents)) as [st|]; [|done].
  destruct (combineResultJsonWithStats (List.filter valid contents)) as [stats|];
    [|done].
  intros [= <-]. by exists st, stats.
Qed.


(** The log written into the container is the merged one: ids pairwise
    different and ascending. *)
Lemma packaged_log_sorted h contents out :
  combineZipContents h contents = Ok out ->
  exists c,
    blob out !! "result.json" = Some (Serialized c) /\
    NoDup (map msg_id (cr_messages c)) /\
    StronglySorted Z.le (map msg_id (cr_messages c)).
Proof.
  intros (st & stats & _ & Hstats & -> & _)%combineZipContents_Ok.
  exists (buffer stats). split; [by rewrite lookup_insert_eq|].
  apply combine_Ok in Hstats as (st' & _ & _ & _ & -> & _).
  apply merged_ids.
Qed.

(** *** The file counter *)

(** One entry either writes nothing, or writes one file away from the
    message log's path and raises the counter by one. *)
Lemma pack_entry_cases h rootPrefix st e :
  let st' := pack_entry h rootPrefix st e in
  (combinedZip st' = combinedZip st /\ totalFiles st' = totalFiles st) \/
  (exists p v, p ≠ "result.json" /\
               combinedZip st' = <[p := v]> (combinedZip st) /\
               totalFiles st' = S (totalFiles st)).
Proof.
  simpl. unfold pack_entry.
  destruct (_ || _ || _ || _ || _); [by left|].
  set (adjustedPath := if truthy rootPrefix then _ else _).
  destruct (negb (truthy adjustedPath)); [by left|].
  destruct (String.eqb_spec adjustedPath "result.json") as [|Hne]; [by left|].
  destruct (match fileMap st !! adjustedPath with
            | Some e0 => _ | None => true end); [|by left].
  right. by exists adjustedPath, (Copied (data e)).
Qed.

Lemma pack_entry_counted h rootPrefix st e :
  counted st -> counted (pack_entry h rootPrefix st e).
Proof.
  intros [Hsize Hlog]. unfold counted.
  destruct (pack_entry_cases h rootPrefix st e)
    as [[-> ->]|(p & v & Hp & -> & ->)]; [done|].
  split.
  - rewrite map_size_insert. destruct (combinedZip st !! p); simpl; lia.
  - by rewrite lookup_insert_ne.
Qed.

Lemma pack_loop_counted h st contents st' :
  counted st -> pack_loop h st contents = Ok st' -> counted st'.
Proof.
  revert st. induction contents as [|c contents IH]; intros st Hst; simpl.
  - by intros [= <-].
  - unfold pack_content. destruct (originalFile c) as [f|]; [|done].
    unfold_result. destruct (loadAsync f) as [zip|]; [|done].
    apply IH. apply DedupFacts.foldl_invariant; [|done].
    intros a b. apply pack_entry_counted.
Qed.

(** [totalFiles] is never below the number of ordinary files written. *)
Lemma totalFiles_at_least_written h contents out :
  combineZipContents h contents = Ok out ->
  size (delete "result.json" (blob out)) <= out_totalFiles out.
Proof.
  intros (st & stats & Hst & _ & -> & ->)%combineZipContents_Ok.
  apply pack_loop_counted in Hst as [Hsize Hlog]; [|done].
  rewrite delete_insert_eq. by rewrite delete_id.
Qed.

(** *** When the counter is right *)

Lemma pack_entry_skipped h rootPrefix st e :
  packed_path rootPrefix e = None -> pack_entry h rootPrefix st e = st.
Proof.
  unfold packed_path, pack_entry.
  destruct (_ || _ || _ || _ || _); [done|].
  destruct (negb (truthy _)); [done|].
  by destruct (String.eqb _ "result.json").
Qed.

Lemma pack_entry_packed h rootPrefix st e p :
  packed_path rootPrefix e = Some p ->
  match fileMap st !! p with
  | None =>
      combinedZip (pack_entry h rootPrefix st e) =
        <[p := Copied (data e)]> (combinedZip st) /\
      (exists t, fileMap (pack_entry h rootPrefix st e) = <[p := t]> (fileMap st)) /\
      totalFiles (pack_entry h rootPrefix st e) = S (totalFiles st)
  | Some _ =>
      (combinedZip (pack_entry h rootPrefix st e) = combinedZip st \/
       combinedZip (pack_entry h rootPrefix st e) =
         <[p := Copied (data e)]> (combinedZip st)) /\
      (fileMap (pack_entry h rootPrefix st e) = fileMap st \/
       exists t, fileMap (pack_entry h rootPrefix st e) = <[p := t]> (fileMap st)) /\
      totalFiles (pack_entry h rootPrefix st e) <= S (totalFiles st)
  end.
Proof.
  unfold packed_path, pack_entry.
  destruct (_ || _ || _ || _ || _); [done|].
  destruct (negb (truthy _)); [done|].
  destruct (String.eqb _ "result.json"); [done|].
  intros [= ->].
  destruct (fileMap st !! p) as [[q t]|] eqn:Hp; simpl.
  - destruct (t <? _)%Z; simpl.
    + split; [by right|]. split; [right; eauto|lia].
    + split; [by left|]. split; [by left|lia].
  - split; [done|]. split; [eauto|done].
Qed.

(** A copy already kept for a path is replaced exactly when the new copy's
    score is strictly higher. *)
Lemma replaced_only_if_strictly_newer h rootPrefix st e p old :
  packed_path rootPrefix e = Some p ->
  fileMap st !! p = Some old ->
  combinedZip (pack_entry h rootPrefix st e) =
    if (old.2 <? getTimestampFromPath h (clock st) p)%Z
    then <[p := Copied (data e)]> (combinedZip st)
    else combinedZip st.
Proof.
  unfold packed_path, pack_entry.
  destruct (_ || _ || _ || _ || _); [done|].
  destruct (negb (truthy _)); [done|].
  destruct (String.eqb _ "result.json"); [done|].
  intros [= ->] ->. by destruct (_ <? _)%Z.
Qed.

Lemma is_Some_insert {A} (m : gmap string A) p q x :
  is_Some (<[p := x]> m !! q) <-> q = p \/ is_Some (m !! q).
Proof.
  destruct (decide (p = q)) as [->|Hne].
  - rewrite lookup_insert_eq. split; [by left|by eexists].
  - rewrite lookup_insert_ne by done. split; [by right|].
    intros [->|H]; done.
Qed.

Lemma pack_entry_accounted h rootPrefix seen st e :
  accounted seen st ->
  accounted (seen ++ from_option (fun p => [p]) [] (packed_path rootPrefix e))
            (pack_entry h rootPrefix st e).
Proof.
  intros (Hfm & Hcz & Htot & Hsize). unfold accounted.
  destruct (packed_path rootPrefix e) as [p|] eqn:Hp; simpl.
  - pose proof (pack_entry_packed h rootPrefix st e p Hp) as Hstep.
    destruct (fileMap st !! p) as [old|] eqn:Hold.
    + assert (p ∈ seen) as Hseen by (apply Hfm; eauto).
      destruct Hstep as (Hc & Hf & Ht).
      split; [|split; [|split]].
      * intros q. rewrite elem_of_app, list_elem_of_singleton.
        destruct Hf as [->|[t ->]]; rewrite ?is_Some_insert, Hfm;
          split; try tauto; intros [?|?]; subst; tauto.
      * intros q. rewrite elem_of_app, list_elem_of_singleton.
        destruct Hc as [->| ->]; rewrite ?is_Some_insert, Hcz;
          split; try tauto; intros [?|?]; subst; tauto.
      * rewrite length_app. simpl. lia.
      * intros [_ [Hnew _]]%NoDup_app. exfalso.
        apply (Hnew p); [done|]. by apply list_elem_of_singleton.
    + assert (p ∉ seen) as Hfresh.
      { intros Hin. apply Hfm in Hin as [? ?]. congruence. }
      destruct Hstep as (-> & [t ->] & ->).
      split; [|split; [|split]].
      * intros q. rewrite elem_of_app, list_elem_of_singleton, is_Some_insert, Hfm.
        tauto.
      * intros q. rewrite elem_of_app, list_elem_of_singleton, is_Some_insert, Hcz.
        tauto.
      * rewrite length_app. simpl. lia.
      * intros [Hnd _]%NoDup_app. rewrite length_app. simpl.
        rewrite map_size_insert_None; [rewrite Hsize by done; lia|].
        destruct (combinedZip st !! p) eqn:Hcp; [|done].
        exfalso. apply Hfresh, Hcz. eauto.
  - rewrite app_nil_r. by rewrite (pack_entry_skipped _ _ _ _ Hp).
Qed.

Lemma pack_entries_accounted h rootPrefix zip seen st :
  accounted seen st ->
  accounted (seen ++ omap (packed_path rootPrefix) zip)
            (foldl (pack_entry h rootPrefix) st zip).
Proof.
  revert seen st. induction zip as [|e zip IH]; intros seen st Hst; simpl.
  - by rewrite app_nil_r.
  - pose proof (pack_entry_accounted h rootPrefix seen st e Hst) as Hstep.
    apply IH in Hstep.
    destruct (packed_path rootPrefix e) as [p|]; simpl in *.
    + by rewrite <- app_assoc in Hstep.
    + by rewrite app_nil_r in Hstep.
Qed.

Lemma pack_loop_accounted h contents seen st st' :
  accounted seen st ->
  pack_loop h st contents = Ok st' ->
  accounted (seen ++ packed_paths contents) st'.
Proof.
  revert seen st. induction contents as [|c contents IH]; intros seen st Hst; simpl.
  - intros [= <-]. by rewrite app_nil_r.
  - unfold pack_content. destruct (originalFile c) as [f|]; [|done].
    unfold loadAsync. destruct (archive f) as [zip|]; unfold_result; [|done].
    intros Hloop. rewrite app_assoc. simpl.
    apply (IH _ _ (pack_entries_accounted h (rootPrefix c) zip seen st Hst) Hloop).
Qed.

(** When no root-relative path is met twice, [totalFiles] is the number of
    ordinary files in the container. *)
Lemma totalFiles_exact_without_repetition h contents out :
  combineZipContents h contents = Ok out ->
  NoDup (packed_paths (List.filter valid contents)) ->
  out_totalFiles out = size (delete "result.json" (blob out)).
Proof.
  intros (st & stats & Hst & _ & -> & ->)%combineZipContents_Ok Hnd.
  assert (counted packing0) as Hc0 by done.
  pose proof (pack_loop_counted _ _ _ _ Hc0 Hst) as [Hle Hlog].
  assert (accounted [] packing0) as H0.
  { split; [|split; [|split]]; simpl; try done;
      intros q; rewrite lookup_empty; split;
      [by intros [? ?]|by intros ?%elem_of_nil
      |by intros [? ?]|by intros ?%elem_of_nil]. }
  destruct (pack_loop_accounted _ _ _ _ _ H0 Hst) as (_ & _ & Htot & Hsize).
  simpl in Htot, Hsize. rewrite delete_insert_eq, delete_id by done.
  specialize (Hsize Hnd). lia.
Qed.

Lemma plausible_steady_run : plausible steady_run.
Proof. intros n. simpl. lia. Qed.

Lemma plausible_lucky_run : plausible lucky_run.
Proof. intros n. simpl. destruct n; lia. Qed.

(** C7. [totalFiles] is meant to count the distinct paths written, but
    it is raised again whenever a later copy replaces the kept one: with
    [photos/a.jpg] in both archives and a higher score for the second
    copy, one ordinary file is written and [totalFiles] is 2. *)
Theorem totalFiles_counts_replacements :
  plausible lucky_run /\
  exists out,
    combineZipContents lucky_run [first_export; second_export] = Ok out /\
    size (delete "result.json" (blob out)) = 1 /\
    blob out !! "photos/a.jpg" = Some (Copied (Bytes "second copy")) /\
    out_totalFiles out = 2.
Proof.
  split; [apply plausible_lucky_run|].
  eexists. split; [reflexivity|].
  by vm_compute.
Qed.

(** C10. The winner is not a function of the input archives: the score of
    a path is [Date.now()] minus a fresh draw plus a term of the path, and
    for one and the same input set two runs that differ only in their
    draws keep different copies of the same path and report different
    [totalFiles]. *)
Theorem winner_depends_on_the_draw :
  (forall h n path,
      getTimestampFromPath h n path =
        (Date_now h n - Math_random_scaled h n
         + Z.of_nat (String.length path) * 100)%Z) /\
  exists contents h1 h2 out1 out2 path,
    plausible h1 /\ plausible h2 /\
    (forall n, Date_now h1 n = Date_now h2 n) /\
    combineZipContents h1 contents = Ok out1 /\
    combineZipContents h2 contents = Ok out2 /\
    blob out1 !! path ≠ blob out2 !! path /\
    out_totalFiles out1 ≠ out_totalFiles out2.
Proof.
  split; [done|].
  exists [first_export; second_export], steady_run, lucky_run.
  eexists _, _, "photos/a.jpg".
  split; [apply plausible_steady_run|].
  split; [apply plausible_lucky_run|].
  split; [done|].
  split; [reflexivity|]. split; [reflexivity|].
  split; by vm_compute.
Qed.

End PackagerFacts.

(** ** The chat id check as a whole *)

Module CombinerFacts.
Import JsString Zip Merge Packager Combiner ParseFacts MergeFacts PackagerFacts Examples.

(** One turn of the loop of [handleAnalyze] that does not throw. *)
Lemma analyse_step_Ok st c st' :
  analyse_step st c = Ok st' ->
  (st' = st /\ forall a, ~ analysed c a) \/
  (exists a,
      analysed c a /\ results st' = results st ++ [a] /\
      match firstId st with
      | None =>
          firstId st' = Some (an_id a) /\
          mismatch st' = mismatch st /\ shown st' = shown st
      | Some f =>
          firstId st' = Some f /\
          ((f = an_id a /\ mismatch st' = mismatch st /\ shown st' = shown st) \/
           (f ≠ an_id a /\ mismatch st' = true /\
            shown st' = Some (MismatchDetected f (an_id a))))
      end).
Proof.
  unfold analyse_step.
  destruct (valid c) eqn:Hv, (hasResultsJson c) eqn:Hh; simpl;
    try (intros [= <-]; left; split; [done|];
         intros a (Hv' & Hh' & _); congruence).
  unfold_result. destruct (analyzeResultJson c) as [a|] eqn:Ha; [|done].
  intros Hst. right. exists a. split; [done|].
  destruct (firstId st) as [f|].
  - destruct (Z.eqb_spec f (an_id a)) as [Heq|Hne]; simpl in Hst;
      injection Hst as <-; simpl; (split; [done|]); (split; [done|]).
    + by left.
    + by right.
  - by injection Hst as <-.
Qed.

Lemma analyse_step_tracking st c st' :
  tracking st -> analyse_step st c = Ok st' -> tracking st'.
Proof.
  intros (Hfirst & Hflag & Hshown) Hstep.
  destruct (analyse_step_Ok _ _ _ Hstep) as [[-> _]|(a & _ & Hres & Hcase)];
    [done|].
  unfold tracking. rewrite Hres.
  destruct (firstId st) as [f|] eqn:Hf.
  - destruct Hcase as (Hf' & Hcase). rewrite Hf'.
    assert (exists r0 rs, results st = r0 :: rs /\ an_id r0 = f)
      as (r0 & rs & Hrs & Hr0).
    { destruct (results st) as [|r0 rs]; [done|].
      injection Hfirst as ->. eauto. }
    split; [rewrite Hrs; simpl; by rewrite Hr0|].
    destruct Hcase as [(Heq & Hm & Hs)|(Hne & Hm & Hs)]; rewrite Hm, Hs.
    + split.
      * intros x f' [Hx|Hx%list_elem_of_singleton]%elem_of_app [= <-] Hxf.
        -- by apply (Hflag x f).
        -- congruence.
      * intros Hm'. destruct (Hshown Hm') as (f0 & b & [= <-] & Hb & Hsh).
        by exists f, b.
    + split; [done|]. intros _. exists f, (an_id a). by repeat split.
  - destruct Hcase as (Hf' & Hm & Hs). rewrite Hf', Hm, Hs.
    assert (results st = []) as Hnil.
    { destruct (results st); [done|]. simpl in Hfirst. congruence. }
    assert (mismatch st = false) as Hfalse.
    { destruct (mismatch st); [|done].
      by destruct (Hshown eq_refl) as (f & _ & Hf0 & _). }
    rewrite Hnil, Hfalse. simpl. split; [done|]. split; [|done].
    intros x f Hx%list_elem_of_singleton [= <-]. by subst.
Qed.

Lemma analyse_loop_grows st contents st' o a :
  analyse_loop st contents = (st', o) -> a ∈ results st -> a ∈ results st'.
Proof.
  revert st. induction contents as [|c contents IH]; intros st; simpl.
  - by intros [= <- _].
  - destruct (analyse_step st c) as [st1|e] eqn:Hstep; [|by intros [= <- _]].
    intros Hloop Ha. apply (IH _ Hloop).
    destruct (analyse_step_Ok _ _ _ Hstep) as [[-> _]|(a' & _ & -> & _)];
      [done|]. apply elem_of_app. by left.
Qed.

Lemma analyse_loop_tracking st contents st' o :
  tracking st -> analyse_loop st contents = (st', o) ->
  tracking st' /\
  (o = None -> forall c a, c ∈ contents -> analysed c a -> a ∈ results st').
Proof.
  revert st. induction contents as [|c contents IH]; intros st Hst; simpl.
  - intros [= <- <-]. split; [done|]. by intros _ c a ?%elem_of_nil.
  - destruct (analyse_step st c) as [st1|e] eqn:Hstep; [|by intros [= <- <-]].
    pose proof (analyse_step_tracking _ _ _ Hst Hstep) as Hst1.
    intros Hloop. destruct (IH _ Hst1 Hloop) as [Hst' Hall].
    split; [done|]. intros -> c' a [->|Hin]%elem_of_cons Ha.
    + apply (analyse_loop_grows _ _ _ _ _ Hloop).
      destruct (analyse_step_Ok _ _ _ Hstep) as [[_ Hno]|(a' & Ha' & -> & _)].
      * by destruct (Hno a).
      * destruct Ha as (_ & _ & Ha), Ha' as (_ & _ & Ha').
        rewrite Ha in Ha'. injection Ha' as <-.
        apply elem_of_app. right. by apply list_elem_of_singleton.
    + by apply (Hall eq_refl c' a).
Qed.

Lemma tracking0 : tracking analysing0.
Proof.
  split; [done|]. split; [|done]. by intros a f ?%elem_of_nil.
Qed.





End CombinerFacts.

(** ** unzipFile: the top-level summary *)

Module SummaryFacts.
Import JsString Zip Inspector Notions JsStringFacts JsArrayFacts Examples.

(** *** Folder lists (second pass) *)

Lemma filter_snoc {A} (f : A -> bool) l x :
  List.filter f (l ++ [x]) = List.filter f l ++ (if f x then [x] else []).
Proof. rewrite List.filter_app. simpl. by destruct (f x). Qed.

Lemma track_grouped st p : grouped st -> grouped (track st p).
Proof.
  intros Hst folder. unfold track. simpl. rewrite filter_snoc, <- Hst.
  unfold under. destruct (includes p "/"); simpl.
  - unfold push_folder.
    destruct (String.eqb_spec (hd "" (split slash p)) folder) as [<-|Hne].
    + by rewrite lookup_insert_eq.
    + rewrite lookup_insert_ne by done. by rewrite app_nil_r.
  - by rewrite app_nil_r.
Qed.

Lemma collect_step_grouped rootPrefix st e :
  grouped st -> grouped (collect_step rootPrefix st e).
Proof.
  intros Hst. unfold collect_step.
  repeat match goal with
         | |- context [if ?c then _ else _] => destruct c
         end; try done; by apply track_grouped.
Qed.

Lemma collect_grouped rootPrefix content : grouped (collect rootPrefix content).
Proof.
  unfold collect.
  apply (DedupFacts.foldl_invariant grouped); [apply collect_step_grouped|].
  intros folder. simpl. by rewrite lookup_empty.
Qed.

(** *** Items (third pass) *)

Lemma single_part s t : split slash s = [t] -> s = t.
Proof.
  intros H. rewrite <- (join_split slash s), H. done.
Qed.

Lemma processFilePath_described rootPrefix fc content st filePath zipEntry :
  zipEntry ∈ content ->
  adjusted rootPrefix zipEntry = filePath ->
  Forall (described rootPrefix fc content) (items st) ->
  Forall (described rootPrefix fc content)
         (items (processFilePath fc st filePath zipEntry)).
Proof.
  intros Hin Hadj Hst. unfold processFilePath.
  destruct (_ || _); [done|].
  destruct (length (split slash filePath) =? 1) eqn:Hlen; simpl.
  - destruct (dir zipEntry) eqn:Hdir; simpl;
      (apply Forall_app; split; [done|]); apply Forall_singleton;
      unfold described; simpl; [done|].
    exists zipEntry. apply Nat.eqb_eq in Hlen.
    destruct (split slash filePath) as [|t [|? ?]] eqn:Hsplit; try done.
    apply single_part in Hsplit. simpl. by subst.
  - apply Forall_app. split; [done|]. apply Forall_singleton.
    by unfold described.
Qed.

Lemma summarise_step_described rootPrefix fc content st e :
  e ∈ content ->
  Forall (described rootPrefix fc content) (items st) ->
  Forall (described rootPrefix fc content)
         (items (summarise_step rootPrefix fc st e)).
Proof.
  intros Hin Hst. unfold summarise_step.
  destruct (skipped (name e)); [done|].
  destruct (truthy rootPrefix) eqn:Hroot.
  - destruct (startsWith (name e) rootPrefix); [|done].
    destruct (truthy (substring _ _)); [|done].
    apply processFilePath_described; try done.
    unfold adjusted. by rewrite Hroot.
  - apply processFilePath_described; try done.
    unfold adjusted. by rewrite Hroot.
Qed.

Lemma summarise_described rootPrefix fc content :
  Forall (described rootPrefix fc content)
         (items (summarise rootPrefix fc content)).
Proof.
  unfold summarise.
  assert (forall l st,
             (forall e, e ∈ l -> e ∈ content) ->
             Forall (described rootPrefix fc content) (items st) ->
             Forall (described rootPrefix fc content)
                    (items (foldl (summarise_step rootPrefix fc) st l))) as H.
  { induction l as [|e l IH]; intros st Hl Hst; [done|]. simpl.
    apply IH.
    - intros e' He'. apply Hl, elem_of_cons. by right.
    - apply summarise_step_described; [|done]. apply Hl, elem_of_cons. by left. }
  apply H; [done|constructor].
Qed.

(** What the summary holds for every top-level item. A directory item has
    size 0, and as child count the number of collected root-relative paths
    that lie under its first path segment. A file item has as size the
    length of its entry's comment, 0 when the entry has none: the bytes of
    the file are not consulted. *)
Lemma summary_sizes_and_counts lc uuid f (content : JSZip) item :
  let zc := inspect lc uuid f content in
  item ∈ topLevelItems zc ->
  if isDirectory item then
    item_size item = 0 /\
    fileCount item =
      Some (length (List.filter (under (item_name item)) (files zc)))
  else
    exists zipEntry,
      zipEntry ∈ content /\ dir zipEntry = false /\
      adjusted (rootPrefix zc) zipEntry = item_name item /\
      item_size item =
        match comment zipEntry with
        | Some c => String.length c
        | None => 0
        end.
Proof.
  simpl. intros Hin%sort_elem.
  pose proof (summarise_described (loc_rootPrefix (locate content))
                (folderContents (collect (loc_rootPrefix (locate content)) content))
                content) as Hall.
  rewrite Forall_forall in Hall. specialize (Hall _ Hin).
  unfold described in Hall. destruct (isDirectory item).
  - destruct Hall as [Hsize Hcount]. split; [done|].
    by rewrite Hcount, (collect_grouped _ content (item_name item)).
  - destruct Hall as (e & He & Hdir & Hadj & _ & Hsize & _).
    exists e. by repeat split.
Qed.

Lemma summary_of_commented_export :
  let zc := inspect localeCompare_lex "" some_file commented_export in
  (0 = 0 /\ Some 2 = Some (length (List.filter (under "photos") (files zc)))) /\
  exists zipEntry,
    zipEntry ∈ commented_export /\ dir zipEntry = false /\
    adjusted (rootPrefix zc) zipEntry = "notes.txt" /\
    5 = match comment zipEntry with
        | Some c => String.length c
        | None => 0
        end.
Proof.
  split.
  - apply (summary_sizes_and_counts localeCompare_lex "" some_file commented_export
             {| item_name := "photos"; item_path := "photos/"; item_size := 0;
                isDirectory := true; fileCount := Some 2 |}).
    vm_compute. apply list_elem_of_here.
  - apply (summary_sizes_and_counts localeCompare_lex "" some_file commented_export
             {| item_name := "notes.txt"; item_path := "notes.txt"; item_size := 5;
                isDirectory := false; fileCount := None |}).
    vm_compute. apply list_elem_of_further, list_elem_of_here.
Qed.

(** C9. The size of a file item is meant to be the size of the file, 0
    when it is not known; the code reads the length of the entry's comment
    instead. [notes.txt] holds 10 bytes and carries the comment [hello]:
    its item reports size 5. The directory part of the claim holds, see
    [summary_sizes_and_counts]. *)
Theorem file_size_reads_comment :
  let zc := inspect localeCompare_lex "" some_file commented_export in
  exists zipEntry item,
    zipEntry ∈ commented_export /\
    name zipEntry = "notes.txt" /\
    data zipEntry = Bytes "some notes" /\
    String.length "some notes" = 10 /\
    comment zipEntry = Some "hello" /\
    item ∈ topLevelItems zc /\
    item_name item = "notes.txt" /\
    isDirectory item = false /\
    item_size item = 5.
Proof.
  cbv zeta.
  exists {| name := "notes.txt"; dir := false; comment := Some "hello";
            data := Bytes "some notes" |},
         {| item_name := "notes.txt"; item_path := "notes.txt"; item_size := 5;
            isDirectory := false; fileCount := None |}.
  split; [apply list_elem_of_further, list_elem_of_here|].
  do 4 (split; [reflexivity|]).
  split; [|repeat split; reflexivity].
  vm_compute. apply list_elem_of_further, list_elem_of_here.
Qed.

(** *** The order of the summary *)

Section HostOrder.
Variable localeCompare : string -> string -> Z.
Local Abbreviation name_before := (JsArray.before localeCompare).
Local Abbreviation item_before := (JsArray.before (compareItems localeCompare)).

Hypothesis name_total : forall a b, name_before a b \/ name_before b a.
Hypothesis name_trans :
  forall a b c, name_before a b -> name_before b c -> name_before a c.

Lemma item_before_iff a b :
  item_before a b <->
  (isDirectory a = true /\ isDirectory b = false) \/
  (isDirectory a = isDirectory b /\ name_before (item_name a) (item_name b)).
Proof.
  unfold JsArray.before, compareItems.
  destruct (isDirectory a), (isDirectory b); simpl; split;
    try tauto; try lia; intros [[? ?]|[? ?]]; try done; lia.
Qed.

Lemma compareItems_total a b : item_before a b \/ item_before b a.
Proof.
  rewrite !item_before_iff.
  destruct (isDirectory a) eqn:Ha, (isDirectory b) eqn:Hb;
    destruct (name_total (item_name a) (item_name b)); tauto.
Qed.

Lemma compareItems_trans a b c :
  item_before a b -> item_before b c -> item_before a c.
Proof.
  rewrite !item_before_iff.
  intros [[Ha Hb]|[Hab Hn]] [[Hb' Hc]|[Hbc Hn']]; try congruence.
  - left. split; congruence.
  - left. split; congruence.
  - right. split; [congruence|]. by apply (name_trans _ (item_name b)).
Qed.

End HostOrder.

Lemma N_of_ascii_inj x y : Ascii.N_of_ascii x = Ascii.N_of_ascii y -> x = y.
Proof.
  intros H. rewrite <- (Ascii.ascii_N_embedding x), <- (Ascii.ascii_N_embedding y).
  by rewrite H.
Qed.

Lemma lex_before a b :
  JsArray.before localeCompare_lex a b <-> lex_le a b.
Proof.
  unfold JsArray.before. revert b.
  induction a as [|x a IH]; intros [|y b]; simpl.
  - split; [constructor|done].
  - split; [constructor|done].
  - split; [done|inversion 1].
  - destruct (N.compare_spec (Ascii.N_of_ascii x) (Ascii.N_of_ascii y))
      as [Heq%N_of_ascii_inj|Hlt|Hgt].
    + subst y. rewrite IH. split; [apply lex_le_tail|].
      inversion 1; subst; [lia|done].
    + split; [by intros; apply lex_le_head|done].
    + split; [done|]. inversion 1; subst; lia.
Qed.

Lemma lex_le_total a b : lex_le a b \/ lex_le b a.
Proof.
  revert b. induction a as [|x a IH]; intros [|y b];
    [left; apply lex_le_empty|left; apply lex_le_empty
    |right; apply lex_le_empty|].
  destruct (N.compare_spec (Ascii.N_of_ascii x) (Ascii.N_of_ascii y))
    as [Heq%N_of_ascii_inj|Hlt|Hgt].
  - subst y. destruct (IH b); [left|right]; by apply lex_le_tail.
  - left. by apply lex_le_head.
  - right. by apply lex_le_head.
Qed.

Lemma lex_le_trans a b c : lex_le a b -> lex_le b c -> lex_le a c.
Proof.
  intros Hab. revert c. induction Hab as [s|x y s t Hxy|x s t Hst IH];
    intros c Hbc.
  - apply lex_le_empty.
  - inversion Hbc; subst; apply lex_le_head; lia.
  - inversion Hbc; subst.
    + by apply lex_le_head.
    + apply lex_le_tail. by apply IH.
Qed.

Lemma caseless_before a b :
  JsArray.before localeCompare_caseless a b <->
  lex_le (collation_key a) (collation_key b).
Proof. apply lex_before. Qed.

Lemma caseless_total a b :
  JsArray.before localeCompare_caseless a b \/
  JsArray.before localeCompare_caseless b a.
Proof. rewrite !caseless_before. apply lex_le_total. Qed.

Lemma caseless_trans a b c :
  JsArray.before localeCompare_caseless a b ->
  JsArray.before localeCompare_caseless b c ->
  JsArray.before localeCompare_caseless a c.
Proof. rewrite !caseless_before. apply lex_le_trans. Qed.

(** C8. Whatever consistent order the host's [localeCompare] puts names
    in, the summary lists all directories before all files, and within
    each group the names ascend in that order. *)
Theorem summary_sorted_by_host localeCompare uuid f (content : JSZip) :
  (forall a b, JsArray.before localeCompare a b \/
               JsArray.before localeCompare b a) ->
  (forall a b c, JsArray.before localeCompare a b ->
                 JsArray.before localeCompare b c ->
                 JsArray.before localeCompare a c) ->
  StronglySorted
    (fun a b =>
       (isDirectory a = true /\ isDirectory b = false) \/
       (isDirectory a = isDirectory b /\
        JsArray.before localeCompare (item_name a) (item_name b)))
    (topLevelItems (inspect localeCompare uuid f content)).
Proof.
  intros Htotal Htrans. simpl.
  eapply StronglySorted_impl; [|apply sort_strongly_sorted].
  - intros a b Hab. by apply item_before_iff.
  - by apply compareItems_total.
  - by apply compareItems_trans.
Qed.

Lemma summary_sorted_by_host_witness :
  StronglySorted
    (fun a b =>
       (isDirectory a = true /\ isDirectory b = false) \/
       (isDirectory a = isDirectory b /\
        JsArray.before localeCompare_caseless (item_name a) (item_name b)))
    (topLevelItems (inspect localeCompare_caseless "" some_file mixed_case_export)).
Proof.
  apply (summary_sorted_by_host localeCompare_caseless "" some_file
           mixed_case_export caseless_total caseless_trans).
Defined.

(** With a host that collates as the usual locales do, the three files
    [B.txt], [b.txt], [a.txt] are listed as [a.txt], [b.txt], [B.txt]:
    within the files the names are not in case-sensitive lexicographic
    order, in which [B.txt] precedes both. *)
Lemma summary_not_in_code_order :
  ~ (forall localeCompare uuid f (content : JSZip),
       (forall a b, JsArray.before localeCompare a b \/
                    JsArray.before localeCompare b a) ->
       (forall a b c, JsArray.before localeCompare a b ->
                      JsArray.before localeCompare b c ->
                      JsArray.before localeCompare a c) ->
       StronglySorted summary_order
         (topLevelItems (inspect localeCompare uuid f content))).
Proof.
  intros H.
  specialize (H localeCompare_caseless "" some_file mixed_case_export
                caseless_total caseless_trans).
  assert (topLevelItems
            (inspect localeCompare_caseless "" some_file mixed_case_export) =
          map (fun n => {| item_name := n; item_path := n; item_size := 0;
                           isDirectory := false; fileCount := None |})
              ["a.txt"; "b.txt"; "B.txt"]) as Hitems by (by vm_compute).
  rewrite Hitems in H. simpl in H.
  apply StronglySorted_inv in H as [H _].
  apply StronglySorted_inv in H as [_ H].
  apply Forall_inv in H. destruct H as [[Hd _]|[_ Hle]]; [done|].
  simpl in Hle. inversion Hle; subst.
  match goal with Hlt : (_ < _)%N |- _ => vm_compute in Hlt; discriminate end.
Qed.

End SummaryFacts.

(** ** More about the merge of the logs *)

Module MergeMore.
Import JsString Zip Merge Notions JsMapFacts JsArrayFacts ParseFacts DedupFacts
       MergeFacts Examples.

(** *** combineResultJson against combineResultJsonWithStats *)





(** *** The records of the merged log *)

Lemma values_dedup_message m a v :
  v ∈ JsMap.values (dedup_message m a) -> v ∈ JsMap.values m \/ v = a.
Proof.
  unfold dedup_message.
  match goal with |- context [if ?c then _ else _] => destruct c end; [|by left].
  generalize (msg_id a). intros k. unfold JsMap.values.
  induction m as [|[k' v'] m IH]; simpl.
  - intros ->%list_elem_of_singleton. by right.
  - destruct (bool_decide (k' = k)); simpl; rewrite !elem_of_cons.
    + intros [->|H]; [by right|left; by right].
    + intros [->|H]; [left; by left|].
      destruct (IH H) as [?|?]; [left; by right|by right].
Qed.

Lemma values_dedup m l v :
  v ∈ JsMap.values (foldl dedup_message m l) -> v ∈ JsMap.values m \/ v ∈ l.
Proof.
  revert m. induction l as [|a l IH]; intros m; simpl; [by left|].
  intros [H|H]%IH.
  - apply values_dedup_message in H as [?| ->]; [by left|].
    right. apply elem_of_cons. by left.
  - right. apply elem_of_cons. by right.
Qed.

(** What a successful call has read and kept. *)
Lemma combine_Ok_logs contents r :
  combineResultJsonWithStats contents = Ok r ->
  exists logs,
    read_logs contents = Ok logs /\ logs ≠ [] /\
    Forall (fun x => Some (chat_id x) = cr_id (buffer r)) logs /\
    cr_messages (buffer r) =
      JsArray.sort compareIds (JsMap.values (dedup logs)) /\
    totalMessages r = Z.of_nat (length (JsMap.keys (dedup logs))) /\
    duplicateMessages r = (total_count logs - totalMessages r)%Z.
Proof.
  intros (st & _ & Hst & Hne & Hmsgs & Hid & Hunique & Hdup)%combine_Ok.
  destruct (parse_loop_Ok _ _ _ Hst) as (logs & Hlogs & Hrs & Htot & Hfirst & Hall).
  simpl in Hrs, Htot, Hfirst. rewrite Hrs in *.
  exists logs. split; [done|]. split; [done|].
  assert (totalMessages r = Z.of_nat (length (JsMap.keys (dedup logs)))) as Hu.
  { by rewrite Hunique, Hmsgs, length_merged. }
  split; [|split; [done|split; [done|]]].
  - rewrite Hid. destruct logs as [|r0 logs]; [done|].
    simpl in Hfirst. specialize (Hall _ Hfirst).
    eapply Forall_impl; [exact Hall|]. intros x Hx. simpl in Hx.
    by rewrite Hfirst, Hx.
  - pose proof (unique_le_total logs). rewrite Hdup, Htot. lia.
Qed.

(** The merged log holds input records only, unchanged, and one for every
    id that occurs in the input. *)
Theorem merged_records_come_from_input contents r :
  combineResultJsonWithStats contents = Ok r ->
  exists logs,
    read_logs contents = Ok logs /\
    (forall m, m ∈ cr_messages (buffer r) -> m ∈ all_messages logs) /\
    (forall a, a ∈ all_messages logs ->
       exists m, m ∈ cr_messages (buffer r) /\ msg_id m = msg_id a).
Proof.
  intros (logs & Hlogs & _ & _ & Hmsgs & _)%combine_Ok_logs.
  exists logs. split; [done|]. rewrite Hmsgs. split.
  - intros m Hm%sort_elem. rewrite dedup_fold in Hm.
    apply values_dedup in Hm as [Hm|Hm]; [|done]. by apply elem_of_nil in Hm.
  - intros a Ha.
    pose proof (keys_met [] (all_messages logs)) as Hmet.
    rewrite <- dedup_fold in Hmet. rewrite Forall_forall in Hmet.
    specialize (Hmet a Ha).
    rewrite <- (values_ids _ (dedup_keyed logs)) in Hmet.
    apply list_elem_of_fmap in Hmet as (m & Hid & Hm).
    exists m. split; [by apply sort_elem|done].
Qed.

Lemma merged_records_come_from_input_witness :
  edited_two ∈ [message 1 None "one"; edited_two; plain_two; message 3 None "three"].
Proof.
  destruct (merged_records_come_from_input [first_export; second_export] _ eq_refl)
    as (logs & Hlogs & Hin & _).
  injection Hlogs as <-. apply Hin.
  apply list_elem_of_further, list_elem_of_here.
Defined.

(** The clamp at zero never acts: the duplicates removed are the records
    read minus the records kept. *)
Theorem duplicates_are_the_difference contents r :
  combineResultJsonWithStats contents = Ok r ->
  exists logs,
    read_logs contents = Ok logs /\
    (totalMessages r + duplicateMessages r = total_count logs)%Z /\
    (1 <= totalMessages r \/ total_count logs = 0)%Z /\
    (totalMessages r <= total_count logs)%Z.
Proof.
  intros (logs & Hlogs & _ & _ & _ & Hu & Hd)%combine_Ok_logs.
  exists logs. split; [done|]. pose proof (unique_le_total logs) as Hle.
  split; [lia|]. split; [|lia].
  rewrite total_count_all in *.
  destruct (all_messages logs) as [|a l] eqn:Hall; [by right|left].
  pose proof (keys_met [] (all_messages logs)) as Hmet.
  rewrite <- dedup_fold, Hall in Hmet. apply Forall_cons in Hmet as [Ha _].
  rewrite Hu. destruct (JsMap.keys (dedup logs)); [by apply elem_of_nil in Ha|].
  simpl. lia.
Qed.

Lemma duplicates_are_the_difference_witness :
  exists r,
    combineResultJsonWithStats [first_export; second_export] = Ok r /\
    (totalMessages r + duplicateMessages r = 4)%Z.
Proof.
  eexists. split; [reflexivity|].
  destruct (duplicates_are_the_difference [first_export; second_export] _ eq_refl)
    as (logs & Hlogs & Hsum & _).
  injection Hlogs as <-. exact Hsum.
Defined.

(** *** The order of the archives *)



Lemma keys_are_ids logs k :
  k ∈ JsMap.keys (dedup logs) <-> k ∈ map msg_id (all_messages logs).
Proof.
  rewrite <- (values_ids _ (dedup_keyed logs)). split.
  - intros (m & -> & Hm)%list_elem_of_fmap. apply list_elem_of_fmap.
    exists m. split; [done|]. rewrite dedup_fold in Hm.
    apply values_dedup in Hm as [Hm|Hm]; [by apply elem_of_nil in Hm|done].
  - intros (a & -> & Ha)%list_elem_of_fmap.
    pose proof (keys_met [] (all_messages logs)) as Hmet.
    rewrite <- dedup_fold in Hmet. rewrite Forall_forall in Hmet.
    rewrite (values_ids _ (dedup_keyed logs)). by apply Hmet.
Qed.


#[local] Instance Z_le_antisym : AntiSymm (=) Z.le.
Proof. intros a b ? ?. lia. Qed.




(** *** How the merge fails *)

Lemma read_log_Throw c e :
  read_log c = Throw e -> e = CorruptedZip \/ e = SyntaxError.
Proof.
  unfold read_log, loadAsync, JSON_parse. unfold_result.
  destruct (originalFile c) as [f|]; [|done].
  destruct (negb (truthy (resultJsonPath c))); [done|].
  destruct (archive f) as [zip|]; [|intros [= <-]; by left].
  destruct (file zip (resultJsonPath c)) as [entry|]; [|done].
  destruct (data entry); [done|]. intros [= <-]. by right.
Qed.

Lemma accept_Throw st r e :
  accept st r = Throw e ->
  exists first, first ≠ chat_id r /\ e = ChatIdMismatch first (chat_id r).
Proof.
  unfold accept. destruct (firstChatId st) as [first|]; [|done].
  destruct (Z.eqb_spec first (chat_id r)); simpl; [done|].
  intros [= <-]. eauto.
Qed.

Lemma parse_step_Throw st c e :
  parse_step st c = Throw e ->
  exists cause, e = ErrorProcessing (zc_name c) cause /\ archive_cause cause.
Proof.
  destruct (read_log c) as [[r|]|e0] eqn:Hlog.
  - rewrite (parse_step_accept _ _ _ Hlog).
    destruct (accept st r) as [?|e1] eqn:Hacc; [done|]. intros [= <-].
    apply accept_Throw in Hacc as (first & Hne & ->).
    eexists. split; [done|]. right. right. eauto.
  - by rewrite (parse_step_skip _ _ Hlog).
  - rewrite (parse_step_throw _ _ _ Hlog). intros [= <-].
    eexists. split; [done|].
    apply read_log_Throw in Hlog as [->| ->]; [by left|right; by left].
Qed.

Lemma parse_loop_Throw st contents e :
  parse_loop st contents = Throw e ->
  exists c cause,
    c ∈ contents /\ e = ErrorProcessing (zc_name c) cause /\ archive_cause cause.
Proof.
  revert st. induction contents as [|c contents IH]; intros st; simpl; [done|].
  unfold_result. destruct (parse_step st c) as [st'|e0] eqn:Hstep.
  - intros (c' & cause & Hin & He & Hc)%IH.
    exists c', cause. split; [by apply list_elem_of_further|done].
  - intros [= <-]. apply parse_step_Throw in Hstep as (cause & -> & Hc).
    exists c, cause. split; [apply list_elem_of_here|done].
Qed.

(** On archives whose logs, where they parse, are as [ResultData]
    describes them (an object with a numeric chat id, its messages
    records), the merge fails in three ways only: no archive was given;
    no archive yields a log; or one of the given archives cannot be
    opened, holds a log that is not JSON, or belongs to another chat than
    the archives before it, and then the error names that archive. *)
Theorem merge_failure_causes contents e :
  combineResultJsonWithStats contents = Throw e ->
  (e = NoValidExports /\ contents = []) \/
  (e = NoValidResultJson /\ contents ≠ [] /\ read_logs contents = Ok []) \/
  (exists c cause,
      c ∈ contents /\ e = ErrorProcessing (zc_name c) cause /\
      archive_cause cause).
Proof.
  unfold combineResultJsonWithStats.
  destruct contents as [|c0 contents]; [intros [= <-]; by left|].
  change (length (c0 :: contents) =? 0) with false. cbv iota.
  unfold_result.
  destruct (parse_loop parsed0 (c0 :: contents)) as [st|e0] eqn:Hloop.
  - destruct (resultJsons st) as [|r0 rs] eqn:Hrs; [|done].
    intros [= <-]. right. left. split; [done|]. split; [done|].
    apply parse_loop_Ok in Hloop as (logs & Hlogs & Hl & _).
    rewrite Hrs in Hl. simpl in Hl. by subst.
  - intros [= <-]. right. right. by apply parse_loop_Throw in Hloop.
Qed.

Lemma merge_failure_causes_witness :
  exists c cause,
    c ∈ [first_export; other_chat] /\
    ErrorProcessing "other.zip" (ChatIdMismatch 42 200) =
      ErrorProcessing (zc_name c) cause /\
    archive_cause cause.
Proof.
  destruct (merge_failure_causes [first_export; other_chat] _ eq_refl)
    as [[H _]|[[H _]|H]]; [discriminate H|discriminate H|exact H].
Defined.

(** *** The identity of the merged chat *)

Lemma first_parsed_cons c contents :
  first_parsed (c :: contents) =
    match read_log c with
    | Ok (Some r) => Some r
    | _ => first_parsed contents
    end.
Proof.
  unfold first_parsed. simpl. by destruct (read_log c) as [[?|]|].
Qed.

Lemma parse_loop_identity st contents st' :
  parse_loop st contents = Ok st' ->
  match firstChatId st with
  | Some _ =>
      firstChatId st' = firstChatId st /\ chatName st' = chatName st /\
      chatType st' = chatType st
  | None =>
      match first_parsed contents with
      | Some first =>
          firstChatId st' = Some (chat_id first) /\
          chatName st' = Some (chat_name first) /\
          chatType st' = Some (chat_type first)
      | None => st' = st
      end
  end.
Proof.
  revert st. induction contents as [|c contents IH]; intros st; simpl.
  - intros [= <-]. by destruct (firstChatId st).
  - unfold_result. destruct (parse_step st c) as [st1|] eqn:Hstep; [|done].
    intros Hloop. specialize (IH _ Hloop). rewrite first_parsed_cons.
    destruct (read_log c) as [[r|]|e0] eqn:Hlog.
    + rewrite (parse_step_accept _ _ _ Hlog) in Hstep.
      unfold accept in Hstep.
      destruct (firstChatId st) as [f|] eqn:Hf.
      * destruct (negb (f =? chat_id r)%Z); [done|].
        injection Hstep as <-. simpl in IH. exact IH.
      * injection Hstep as <-. simpl in IH. exact IH.
    + rewrite (parse_step_skip _ _ Hlog) in Hstep. injection Hstep as <-.
      exact IH.
    + by rewrite (parse_step_throw _ _ _ Hlog) in Hstep.
Qed.

(** For logs with a numeric chat id, as [ResultData] has it: the merged
    log takes the chat's id, name and type from the first archive, in
    supply order, whose log is read; every other log read has that
    id. *)
Theorem merged_identity_is_first_log contents r :
  combineResultJsonWithStats contents = Ok r ->
  exists first logs,
    first_parsed contents = Some first /\
    read_logs contents = Ok logs /\
    cr_id (buffer r) = Some (chat_id first) /\
    cr_name (buffer r) = Some (chat_name first) /\
    cr_type (buffer r) = Some (chat_type first) /\
    Forall (fun x => chat_id x = chat_id first) logs.
Proof.
  intros Hr.
  destruct (combine_Ok_logs _ _ Hr) as (logs & Hlogs & _ & Hids & _).
  unfold combineResultJsonWithStats in Hr.
  destruct (length contents =? 0); [done|]. unfold_result.
  destruct (parse_loop parsed0 contents) as [st|] eqn:Hloop; [|done].
  destruct (length (resultJsons st) =? 0) eqn:Hlen; [done|].
  injection Hr as <-. simpl in *.
  pose proof (parse_loop_identity _ _ _ Hloop) as Hid. simpl in Hid.
  destruct (first_parsed contents) as [first|].
  - destruct Hid as (Hf & Hn & Ht). exists first, logs.
    repeat split; try done.
    eapply Forall_impl; [exact Hids|]. intros x Hx. simpl in Hx. congruence.
  - subst st. done.
Qed.

Lemma merged_identity_is_first_log_witness :
  exists r,
    combineResultJsonWithStats [first_export; second_export] = Ok r /\
    cr_name (buffer r) = Some "Family".
Proof.
  destruct (merged_identity_is_first_log [first_export; second_export] _ eq_refl)
    as (first & logs & Hfirst & _ & _ & Hname & _).
  eexists. split; [reflexivity|].
  injection Hfirst as <-. exact Hname.
Defined.

(** *** When nothing is removed *)

Lemma same_length_iff_nodup (k l : list Z) :
  NoDup k -> (forall x, x ∈ k <-> x ∈ l) ->
  length l = length k <-> NoDup l.
Proof.
  intros Hk Hsame. split.
  - intros Hlen. assert (k ≡ₚ l) as <-; [|done].
    apply submseteq_length_Permutation; [|lia].
    apply NoDup_submseteq; [done|]. intros x. apply Hsame.
  - intros Hl. symmetry. apply Permutation_length.
    by apply list.NoDup_Permutation.
Qed.

(** The merge reports no duplicate exactly when no message id occurs
    twice among the messages of the logs read. *)
Theorem no_duplicates_iff_ids_distinct contents r :
  combineResultJsonWithStats contents = Ok r ->
  exists logs,
    read_logs contents = Ok logs /\
    (duplicateMessages r = 0%Z <-> NoDup (map msg_id (all_messages logs))).
Proof.
  intros Hr.
  destruct (combine_Ok_logs _ _ Hr) as (logs & Hlogs & _ & _ & _ & Hu & Hd).
  exists logs. split; [done|].
  rewrite <- (same_length_iff_nodup (JsMap.keys (dedup logs)));
    [|apply dedup_nodup|intros x; apply keys_are_ids].
  rewrite Hd, Hu, total_count_all, length_map. lia.
Qed.

Lemma no_duplicates_iff_ids_distinct_witness :
  ~ NoDup (map msg_id (all_messages
             [log 42 [message 1 None "one"; edited_two];
              log 42 [plain_two; message 3 None "three"]])).
Proof.
  destruct (no_duplicates_iff_ids_distinct [first_export; second_export] _ eq_refl)
    as (logs & Hlogs & Hiff).
  injection Hlogs as <-. intros Hnd. apply Hiff in Hnd. by vm_compute in Hnd.
Defined.

End MergeMore.

(** ** More about the packaging *)

Module PackagerMore.
Import JsString Zip Merge Packager Notions PackagerFacts Examples.

(** *** The loop body on a handled entry *)

Lemma pack_entry_Some h rootPrefix st e q :
  packed_path rootPrefix e = Some q ->
  pack_entry h rootPrefix st e =
    let folders' :=
      from_option (fun d => Set_add d (folders st)) (folders st) (top_folder q) in
    let ts := getTimestampFromPath h (clock st) q in
    if match fileMap st !! q with
       | None => true
       | Some t => (t.2 <? ts)%Z
       end
    then {| combinedZip := <[q := Copied (data e)]> (combinedZip st);
            fileMap := <[q := (q, ts)]> (fileMap st);
            folders := folders';
            totalFiles := S (totalFiles st);
            clock := S (clock st) |}
    else {| combinedZip := combinedZip st;
            fileMap := fileMap st;
            folders := folders';
            totalFiles := totalFiles st;
            clock := S (clock st) |}.
Proof.
  unfold packed_path, pack_entry, top_folder.
  destruct (_ || _ || _ || _ || _); [done|].
  destruct (negb (truthy _)); [done|].
  destruct (String.eqb _ "result.json"); [done|].
  intros [= <-]. cbv zeta. by destruct (1 <? _).
Qed.

Lemma omap_packed_entry rootPrefix zip :
  (omap (packed_entry rootPrefix) zip).*1 = omap (packed_path rootPrefix) zip.
Proof.
  induction zip as [|e zip IH]; simpl; [done|].
  unfold packed_entry at 1.
  destruct (packed_path rootPrefix e); simpl; [f_equal|]; exact IH.
Qed.

Lemma packed_paths_entries contents :
  packed_paths contents = (packed_entries contents).*1.
Proof.
  unfold packed_paths, packed_entries.
  induction contents as [|c contents IH]; simpl; [done|].
  rewrite fmap_app, <- IH. f_equal.
  destruct (originalFile c) as [f|]; [|done].
  by rewrite omap_packed_entry.
Qed.

(** *** Which copy of a path is kept *)

Lemma ranked_at_other h seen fm cz fm' cz' p q d0 :
  p ≠ q -> fm' !! p = fm !! p -> cz' !! p = cz !! p ->
  ranked_at h seen fm cz p ->
  ranked_at h (seen ++ [(q, d0)]) fm' cz' p.
Proof.
  unfold ranked_at. intros Hne -> ->.
  destruct (fm !! p) as [t|].
  - intros (n & d & Hn & Ht & Hc & Hmax). exists n, d.
    split; [by apply lookup_app_l_Some|]. split; [done|]. split; [done|].
    intros m d' [[_ Hm]|[_ [= ? ?]]]%lookup_snoc_Some; [by eapply Hmax|done].
  - intros [Hc Hfresh]. split; [done|].
    rewrite fmap_app. simpl. intros [?|Hin%list_elem_of_singleton]%elem_of_app; done.
Qed.

Lemma pack_entry_ranked h rootPrefix seen st e :
  ranked h seen st ->
  ranked h (seen ++ from_option (fun x => [x]) [] (packed_entry rootPrefix e))
         (pack_entry h rootPrefix st e).
Proof.
  intros [Hclock Hr]. unfold packed_entry.
  destruct (packed_path rootPrefix e) as [q|] eqn:Hq; simpl;
    [|by rewrite app_nil_r, (pack_entry_skipped _ _ _ _ Hq)].
  rewrite (pack_entry_Some _ _ _ _ _ Hq). cbv zeta.
  rewrite Hclock. pose proof (Hr q) as Hrq. unfold ranked_at in Hrq.
  destruct (fileMap st !! q) as [t|] eqn:Hfq.
  - destruct Hrq as (n & d & Hn & Ht & Hc & Hmax).
    pose proof (lookup_lt_Some _ _ _ Hn) as Hlt.
    destruct (Z.ltb_spec t.2 (getTimestampFromPath h (length seen) q)) as [Hnew|Hold].
    + split; simpl; [rewrite length_app; simpl; lia|].
      intros p. destruct (decide (p = q)) as [->|Hne].
      * unfold ranked_at. rewrite !lookup_insert_eq.
        exists (length seen), (data e).
        split; [by apply list_lookup_middle|]. split; [done|]. split; [done|].
        intros m d' [[Hm Hlook]|[-> _]]%lookup_snoc_Some; [|lia].
        destruct (Hmax _ _ Hlook) as [Hle _]. lia.
      * apply (ranked_at_other _ _ (fileMap st) (combinedZip st)); [done|by rewrite lookup_insert_ne..|apply Hr].
    + split; simpl; [rewrite length_app; simpl; lia|].
      intros p. destruct (decide (p = q)) as [->|Hne].
      * unfold ranked_at. rewrite Hfq. exists n, d.
        split; [by apply lookup_app_l_Some|]. split; [done|]. split; [done|].
        intros m d' [[Hm Hlook]|[-> _]]%lookup_snoc_Some; [by eapply Hmax|lia].
      * apply (ranked_at_other _ _ (fileMap st) (combinedZip st)); [done..|apply Hr].
  - destruct Hrq as [Hc Hfresh].
    split; simpl; [rewrite length_app; simpl; lia|].
    intros p. destruct (decide (p = q)) as [->|Hne].
    + unfold ranked_at. rewrite !lookup_insert_eq.
      exists (length seen), (data e).
      split; [by apply list_lookup_middle|]. split; [done|]. split; [done|].
      intros m d' [[Hm Hlook]|[-> _]]%lookup_snoc_Some; [|lia].
      exfalso. apply Hfresh. apply list_elem_of_fmap.
      exists (q, d'). split; [done|]. by eapply list_elem_of_lookup_2.
    + apply (ranked_at_other _ _ (fileMap st) (combinedZip st)); [done|by rewrite lookup_insert_ne..|apply Hr].
Qed.

Lemma pack_entries_ranked h rootPrefix zip seen st :
  ranked h seen st ->
  ranked h (seen ++ omap (packed_entry rootPrefix) zip)
         (foldl (pack_entry h rootPrefix) st zip).
Proof.
  revert seen st. induction zip as [|e zip IH]; intros seen st Hst; simpl.
  - by rewrite app_nil_r.
  - pose proof (pack_entry_ranked h rootPrefix seen st e Hst) as Hstep.
    apply IH in Hstep.
    destruct (packed_entry rootPrefix e) as [x|]; simpl in *.
    + by rewrite <- app_assoc in Hstep.
    + by rewrite app_nil_r in Hstep.
Qed.

Lemma pack_loop_ranked h contents seen st st' :
  ranked h seen st ->
  pack_loop h st contents = Ok st' ->
  ranked h (seen ++ packed_entries contents) st'.
Proof.
  revert seen st. induction contents as [|c contents IH]; intros seen st Hst; simpl.
  - intros [= <-]. by rewrite app_nil_r.
  - unfold pack_content. destruct (originalFile c) as [f|]; [|done].
    unfold loadAsync. destruct (archive f) as [zip|]; unfold_result; [|done].
    intros Hloop. rewrite app_assoc. simpl.
    apply (IH _ _ (pack_entries_ranked h (rootPrefix c) zip seen st Hst) Hloop).
Qed.

Lemma ranked0 h : ranked h [] packing0.
Proof.
  split; [done|]. intros p. unfold ranked_at. simpl. rewrite lookup_empty.
  split; [done|]. by intros ?%elem_of_nil.
Qed.

(** Every ordinary file of the combined archive is the copy of an entry
    one of the valid archives holds at that root-relative path: the copy
    whose call of [getTimestampFromPath] returned the highest score among
    the copies of that path, and the earliest of these when several share
    it. *)
Theorem kept_copy_has_highest_score h contents out p w :
  combineZipContents h contents = Ok out ->
  p ≠ "result.json" ->
  blob out !! p = Some w ->
  exists n d,
    packed_entries (List.filter valid contents) !! n = Some (p, d) /\
    w = Copied d /\
    forall m d',
      packed_entries (List.filter valid contents) !! m = Some (p, d') ->
      (getTimestampFromPath h m p <= getTimestampFromPath h n p)%Z /\
      (m < n -> (getTimestampFromPath h m p < getTimestampFromPath h n p)%Z).
Proof.
  intros (st & stats & Hst & _ & -> & _)%combineZipContents_Ok Hp.
  rewrite lookup_insert_ne by done. intros Hw.
  destruct (pack_loop_ranked _ _ _ _ _ (ranked0 h) Hst) as [_ Hr].
  specialize (Hr p). unfold ranked_at in Hr. simpl in Hr.
  destruct (fileMap st !! p) as [t|].
  - destruct Hr as (n & d & Hn & _ & Hc & Hmax).
    exists n, d. split; [done|]. split; [congruence|done].
  - destruct Hr as [Hc _]. congruence.
Qed.

Lemma kept_copy_has_highest_score_witness :
  exists n,
    packed_entries (List.filter valid [first_export; second_export]) !! n =
      Some ("photos/a.jpg", Bytes "second copy") /\
    (getTimestampFromPath lucky_run 0 "photos/a.jpg" <
     getTimestampFromPath lucky_run n "photos/a.jpg")%Z.
Proof.
  destruct (kept_copy_has_highest_score lucky_run [first_export; second_export] _
              "photos/a.jpg" (Copied (Bytes "second copy")) eq_refl)
    as (n & d & Hn & Hd & Hmax); [done|by vm_compute|].
  injection Hd as <-. exists n. split; [exact Hn|].
  destruct n as [|n]; [by vm_compute in Hn|]. by vm_compute.
Defined.

(** *** What the combined archive holds *)

Lemma combineZipContents_fields h contents out :
  combineZipContents h contents = Ok out ->
  exists st stats,
    pack_loop h packing0 (List.filter valid contents) = Ok st /\
    combineResultJsonWithStats (List.filter valid contents) = Ok stats /\
    out = {| blob := <["result.json" := Serialized (buffer stats)]> (combinedZip st);
             out_totalMessages := totalMessages stats;
             out_duplicateMessages := duplicateMessages stats;
             out_folders := folders st;
             out_totalFiles := totalFiles st |}.
Proof.
  unfold combineZipContents.
  destruct (length (List.filter valid contents) =? 0); [done|]. unfold_result.
  destruct (pack_loop h packing0 _) as [st|]; [|done].
  destruct (combineResultJsonWithStats _) as [stats|]; [|done].
  intros [= <-]. by exists st, stats.
Qed.

Lemma accounted0 : accounted [] packing0.
Proof.
  split; [|split; [|split]]; simpl; try done;
    intros q; rewrite lookup_empty; split;
    [by intros [? ?]|by intros ?%elem_of_nil
    |by intros [? ?]|by intros ?%elem_of_nil].
Qed.

Lemma packed_path_not_log rootPrefix e : packed_path rootPrefix e ≠ Some "result.json".
Proof.
  unfold packed_path.
  destruct (_ || _ || _ || _ || _); [done|].
  destruct (negb (truthy _)); [done|].
  destruct (String.eqb _ "result.json") eqn:Heq; [done|].
  intros [= H]. rewrite H in Heq. by vm_compute in Heq.
Qed.

Lemma packed_paths_not_log contents : "result.json" ∉ packed_paths contents.
Proof.
  unfold packed_paths. intros Hin%list_elem_of_In%in_flat_map.
  destruct Hin as (c & _ & Hin). destruct (originalFile c) as [f|]; [|done].
  apply list_elem_of_In, list_elem_of_omap in Hin as (e & _ & He).
  by apply packed_path_not_log in He.
Qed.

(** The combined archive holds the merged log at [result.json] and,
    besides it, one file at each root-relative path handled in a valid
    archive and nowhere else: no such file is lost, none is invented, and
    the statistics are those of the merge. *)
Theorem container_holds_packed_paths h contents out :
  combineZipContents h contents = Ok out ->
  (exists stats,
      combineResultJsonWithStats (List.filter valid contents) = Ok stats /\
      blob out !! "result.json" = Some (Serialized (buffer stats)) /\
      out_totalMessages out = totalMessages stats /\
      out_duplicateMessages out = duplicateMessages stats) /\
  (forall p, p ≠ "result.json" ->
     (is_Some (blob out !! p) <-> p ∈ packed_paths (List.filter valid contents))).
Proof.
  intros (st & stats & Hst & Hstats & ->)%combineZipContents_fields. simpl. split.
  - exists stats. by rewrite lookup_insert_eq.
  - intros p Hp. rewrite lookup_insert_ne by done.
    destruct (pack_loop_accounted _ _ _ _ _ accounted0 Hst) as (_ & Hcz & _).
    apply Hcz.
Qed.

Lemma container_holds_packed_paths_witness :
  "photos/a.jpg" ∈ packed_paths (List.filter valid [first_export; second_export]).
Proof.
  destruct (container_holds_packed_paths steady_run [first_export; second_export]
              _ eq_refl) as [_ Hdom].
  apply Hdom; [done|]. eexists. by vm_compute.
Defined.

(** *** The file counter and the number of files *)

Lemma size_of_keys {A} (m : gmap string A) (l : list string) :
  (forall q, is_Some (m !! q) <-> q ∈ l) ->
  size m = length (remove_dups l).
Proof.
  intros Hdom. rewrite <- (size_dom (D := gset string)).
  rewrite <- (size_list_to_set (C := gset string)) by apply NoDup_remove_dups.
  f_equal. apply set_eq. intros q.
  rewrite elem_of_dom, elem_of_list_to_set, elem_of_remove_dups. apply Hdom.
Qed.

(** The number of ordinary files in the combined archive is the number of
    distinct handled paths; [totalFiles] is at least that and at most the
    number of handled entries. *)
Theorem totalFiles_between h contents out :
  combineZipContents h contents = Ok out ->
  size (delete "result.json" (blob out)) =
    length (remove_dups (packed_paths (List.filter valid contents))) /\
  size (delete "result.json" (blob out)) <= out_totalFiles out /\
  out_totalFiles out <= length (packed_paths (List.filter valid contents)).
Proof.
  intros (st & stats & Hst & Hstats & ->)%combineZipContents_fields. simpl.
  destruct (pack_loop_accounted _ _ _ _ _ accounted0 Hst) as (_ & Hcz & Htot & _).
  assert (counted packing0) as Hc0 by done.
  destruct (pack_loop_counted _ _ _ _ Hc0 Hst) as [Hle Hlog].
  rewrite delete_insert_eq, delete_id by done. simpl in *.
  split; [by apply size_of_keys|]. split; [done|done].
Qed.

Lemma totalFiles_between_witness :
  exists out,
    combineZipContents lucky_run [first_export; second_export] = Ok out /\
    1 <= out_totalFiles out <= 2.
Proof.
  eexists. split; [reflexivity|].
  destruct (totalFiles_between lucky_run [first_export; second_export] _ eq_refl)
    as (Hsize & Hlow & Hhigh).
  split; [|exact Hhigh]. rewrite Hsize in Hlow. exact Hlow.
Defined.

(** *** The folder list *)

Lemma Set_add_elem d s x : x ∈ Set_add d s <-> x = d \/ x ∈ s.
Proof.
  unfold Set_add. case_bool_decide as Hd.
  - split; [by right|]. by intros [->|?].
  - rewrite elem_of_app, list_elem_of_singleton. tauto.
Qed.

Lemma Set_add_NoDup d s : NoDup s -> NoDup (Set_add d s).
Proof.
  unfold Set_add. case_bool_decide as Hd; [done|]. intros Hs.
  apply NoDup_app. split; [done|]. split; [|apply NoDup_singleton].
  intros x Hx ->%list_elem_of_singleton. done.
Qed.

Lemma pack_entry_folders h rootPrefix st e :
  folders (pack_entry h rootPrefix st e) =
    match packed_path rootPrefix e with
    | Some q => from_option (fun d => Set_add d (folders st)) (folders st) (top_folder q)
    | None => folders st
    end.
Proof.
  destruct (packed_path rootPrefix e) as [q|] eqn:Hq.
  - rewrite (pack_entry_Some _ _ _ _ _ Hq). cbv zeta.
    by destruct (match fileMap st !! q with Some _ => _ | None => _ end).
  - by rewrite (pack_entry_skipped _ _ _ _ Hq).
Qed.

Lemma pack_entry_foldered h rootPrefix seen st e :
  foldered seen st ->
  foldered (seen ++ from_option (fun p => [p]) [] (packed_path rootPrefix e))
           (pack_entry h rootPrefix st e).
Proof.
  intros [Hnd Hmem]. unfold foldered. rewrite pack_entry_folders.
  destruct (packed_path rootPrefix e) as [q|]; simpl;
    [|by rewrite app_nil_r].
  destruct (top_folder q) as [d0|] eqn:Hq; simpl.
  - split; [by apply Set_add_NoDup|].
    intros d. rewrite Set_add_elem, Hmem. split.
    + intros [->|(p & Hp & Hd)].
      * exists q. split; [|done]. apply elem_of_app. right. apply list_elem_of_here.
      * exists p. split; [|done]. apply elem_of_app. by left.
    + intros (p & [Hp| ->%list_elem_of_singleton]%elem_of_app & Hd).
      * right. eauto.
      * left. congruence.
  - split; [done|]. intros d. rewrite Hmem. split.
    + intros (p & Hp & Hd). exists p. split; [|done]. apply elem_of_app. by left.
    + intros (p & [Hp| ->%list_elem_of_singleton]%elem_of_app & Hd);
        [eauto|congruence].
Qed.

Lemma pack_entries_foldered h rootPrefix zip seen st :
  foldered seen st ->
  foldered (seen ++ omap (packed_path rootPrefix) zip)
           (foldl (pack_entry h rootPrefix) st zip).
Proof.
  revert seen st. induction zip as [|e zip IH]; intros seen st Hst; simpl.
  - by rewrite app_nil_r.
  - pose proof (pack_entry_foldered h rootPrefix seen st e Hst) as Hstep.
    apply IH in Hstep.
    destruct (packed_path rootPrefix e) as [x|]; simpl in *.
    + by rewrite <- app_assoc in Hstep.
    + by rewrite app_nil_r in Hstep.
Qed.

Lemma pack_loop_foldered h contents seen st st' :
  foldered seen st ->
  pack_loop h st contents = Ok st' ->
  foldered (seen ++ packed_paths contents) st'.
Proof.
  revert seen st. induction contents as [|c contents IH]; intros seen st Hst; simpl.
  - intros [= <-]. by rewrite app_nil_r.
  - unfold pack_content. destruct (originalFile c) as [f|]; [|done].
    unfold loadAsync. destruct (archive f) as [zip|]; unfold_result; [|done].
    intros Hloop. rewrite app_assoc. simpl.
    apply (IH _ _ (pack_entries_foldered h (rootPrefix c) zip seen st Hst) Hloop).
Qed.

(** The reported folders are, once each, the first path segments of the
    files of the combined archive that lie inside a folder. *)
Theorem folders_are_those_of_the_files h contents out :
  combineZipContents h contents = Ok out ->
  NoDup (out_folders out) /\
  forall d, d ∈ out_folders out <->
            exists p, is_Some (blob out !! p) /\ top_folder p = Some d.
Proof.
  intros (st & stats & Hst & Hstats & ->)%combineZipContents_fields. simpl.
  assert (foldered [] packing0) as H0.
  { split; [constructor|]. intros d. simpl. split; [by intros ?%elem_of_nil|].
    by intros (p & ?%elem_of_nil & _). }
  destruct (pack_loop_foldered _ _ _ _ _ H0 Hst) as [Hnd Hmem].
  destruct (pack_loop_accounted _ _ _ _ _ accounted0 Hst) as (_ & Hcz & _).
  simpl in *. split; [done|]. intros d. rewrite Hmem. split.
  - intros (p & Hp & Hd). exists p. split; [|done].
    rewrite lookup_insert_ne; [by apply Hcz|].
    intros <-. by apply packed_paths_not_log in Hp.
  - intros (p & Hp & Hd). exists p. split; [|done].
    destruct (decide (p = "result.json")) as [->|Hne]; [by vm_compute in Hd|].
    rewrite lookup_insert_ne in Hp by done. by apply Hcz.
Qed.

Lemma folders_are_those_of_the_files_witness :
  exists out,
    combineZipContents steady_run [first_export; second_export] = Ok out /\
    "photos" ∈ out_folders out.
Proof.
  eexists. split; [reflexivity|].
  destruct (folders_are_those_of_the_files steady_run [first_export; second_export]
              _ eq_refl) as [_ Hmem].
  apply Hmem. exists "photos/a.jpg". split; [eexists|]; by vm_compute.
Defined.

(** *** How the packaging fails *)

Lemma pack_loop_Throw h st contents e :
  pack_loop h st contents = Throw e ->
  exists c,
    c ∈ contents /\
    ((originalFile c = None /\ e = OriginalFileMissing (zc_name c)) \/
     (exists f, originalFile c = Some f /\ archive f = None /\ e = CorruptedZip)).
Proof.
  revert st. induction contents as [|c contents IH]; intros st; simpl; [done|].
  unfold_result. destruct (pack_content h st c) as [st'|e0] eqn:Hc.
  - intros (c' & Hin & H)%IH. exists c'. split; [by apply list_elem_of_further|done].
  - intros [= <-]. exists c. split; [apply list_elem_of_here|].
    unfold pack_content, loadAsync in Hc.
    destruct (originalFile c) as [f|]; [|injection Hc as <-; by left].
    destruct (archive f) as [zip|] eqn:Hf; unfold_result; [done|].
    injection Hc as <-. right. eauto.
Qed.

(** Packaging fails in three ways only: every supplied archive carries an
    inspection error; a valid archive has no stored file or cannot be
    opened; or all valid archives were read through and the merge of
    their logs failed, whose error is then passed on wrapped. *)
Theorem packaging_failure_causes h contents e :
  combineZipContents h contents = Throw e ->
  (e = NoValidExports /\ forall c, c ∈ contents -> valid c = false) \/
  (exists c,
      c ∈ contents /\ valid c = true /\
      ((originalFile c = None /\ e = OriginalFileMissing (zc_name c)) \/
       (exists f, originalFile c = Some f /\ archive f = None /\
                  e = CorruptedZip))) \/
  (exists e' st,
      e = ErrorCombining e' /\
      pack_loop h packing0 (List.filter valid contents) = Ok st /\
      combineResultJsonWithStats (List.filter valid contents) = Throw e').
Proof.
  unfold combineZipContents.
  destruct (List.filter valid contents) as [|c0 l] eqn:Hvalid.
  - intros [= <-]. left. split; [done|]. intros c Hc.
    destruct (valid c) eqn:Hv; [|done].
    assert (In c (List.filter valid contents)) as Hin.
    { apply filter_In. split; [by apply list_elem_of_In|done]. }
    rewrite Hvalid in Hin. destruct Hin.
  - change (length (c0 :: l) =? 0) with false. cbv iota. unfold_result.
    destruct (pack_loop h packing0 (c0 :: l)) as [st|e0] eqn:Hpack.
    + destruct (combineResultJsonWithStats (c0 :: l)) as [stats|e1]; [done|].
      intros [= <-]. right. right. by exists e1, st.
    + intros [= <-]. right. left.
      apply pack_loop_Throw in Hpack as (c & Hin & Hc). exists c.
      rewrite <- Hvalid in Hin.
      apply list_elem_of_In, filter_In in Hin as [Hin Hv].
      split; [by apply list_elem_of_In|]. by split.
Qed.

Lemma packaging_failure_causes_witness :
  exists e' st,
    pack_loop steady_run packing0 (List.filter valid [first_export; other_chat]) =
      Ok st /\
    combineResultJsonWithStats (List.filter valid [first_export; other_chat]) =
      Throw e'.
Proof.
  destruct (packaging_failure_causes steady_run [first_export; other_chat] _ eq_refl)
    as [[H _]|[(c & _ & _ & [[_ H]|(f & _ & _ & H)])|(e' & st & _ & Hp & Hm)]];
    [discriminate H|discriminate H|discriminate H|].
  by exists e', st.
Defined.

End PackagerMore.

(** ** More about the inspection of an archive *)

Module InspectorMore.
Import JsString Zip Inspector Merge Packager Notions.
Import JsArrayFacts JsStringFacts LocateFacts PackagerFacts Examples.

(** *** The listed files (second pass) *)

Lemma collect_step_listed rootPrefix st e :
  allFiles (collect_step rootPrefix st e) =
    allFiles st ++ from_option (fun p => [p]) [] (listed rootPrefix e).
Proof.
  unfold collect_step, listed.
  repeat match goal with
         | |- context [if ?c then _ else _] => destruct c
         end; simpl; by rewrite ?app_nil_r.
Qed.

Lemma collect_from rootPrefix st content :
  allFiles (foldl (collect_step rootPrefix) st content) =
    allFiles st ++ omap (listed rootPrefix) content.
Proof.
  revert st. induction content as [|e content IH]; intros st; simpl.
  - by rewrite app_nil_r.
  - rewrite IH, collect_step_listed.
    destruct (listed rootPrefix e); simpl; [by rewrite <- app_assoc|].
    by rewrite app_nil_r.
Qed.

Lemma files_listed lc uuid f content :
  files (inspect lc uuid f content) =
    omap (listed (rootPrefix (inspect lc uuid f content))) content.
Proof. unfold inspect, collect. simpl. by rewrite collect_from. Qed.

Lemma prefix_shorter (a b s : string) :
  String.prefix (a +:+ b) s = true -> String.prefix a s = true.
Proof.
  revert s. induction a as [|c a IH]; intros s; [by destruct s|].
  rewrite append_cons. destruct s as [|c' s]; simpl; [done|].
  destruct (ascii_dec c c'); [apply IH|done].
Qed.

Lemma listed_packed rootPrefix e p :
  listed rootPrefix e = Some p -> p ≠ "result.json" -> p ≠ "" ->
  packed_path rootPrefix e = Some p.
Proof.
  unfold listed, packed_path, skipped. intros H Hlog Hempty.
  destruct (startsWith (name e) ".") eqn:Hdot; [done|].
  destruct (startsWith (name e) "__MACOSX") eqn:Hmac; [done|].
  destruct (includes (name e) "/__MACOSX/") eqn:Hinc; [done|].
  assert (startsWith (name e) "__MACOSX/" = false) as ->.
  { destruct (startsWith (name e) "__MACOSX/") eqn:Hs; [|done].
    rewrite <- Hmac. symmetry. apply (prefix_shorter "__MACOSX" "/"), Hs. }
  simpl in H. rewrite !orb_false_r.
  assert (truthy p = true) as Htruthy.
  { unfold truthy. by destruct (String.eqb_spec p ""). }
  assert (String.eqb p "result.json" = false) as Hne.
  { by destruct (String.eqb_spec p "result.json"). }
  destruct (truthy rootPrefix); simpl in *.
  - destruct (startsWith (name e) rootPrefix); simpl in *; [|done].
    destruct (dir e); simpl in *; [done|].
    destruct (truthy (substring _ _)); [|done].
    injection H as H. rewrite ?H, ?Htruthy. simpl. by rewrite ?H, Hne.
  - destruct (dir e); simpl in *; [done|].
    injection H as H. rewrite ?H, ?Htruthy. simpl. by rewrite ?H, Hne.
Qed.

Lemma packed_listed rootPrefix e p :
  packed_path rootPrefix e = Some p ->
  listed rootPrefix e = Some p \/ startsWith (name e) "__MACOSX" = true.
Proof.
  unfold listed, packed_path, skipped.
  destruct (startsWith (name e) "__MACOSX") eqn:Hmac; [by right|]. left.
  revert H.
  destruct (dir e); simpl; [done|].
  destruct (truthy rootPrefix); simpl.
  - destruct (startsWith (name e) rootPrefix); simpl; [|done].
    destruct (startsWith (name e) "."); simpl; [done|].
    destruct (startsWith (name e) "__MACOSX/"); simpl; [done|].
    destruct (includes (name e) "/__MACOSX/"); simpl; [done|].
    destruct (truthy (substring _ _)); simpl; [|done].
    by destruct (String.eqb _ "result.json").
  - destruct (startsWith (name e) "."); simpl; [done|].
    destruct (startsWith (name e) "__MACOSX/"); simpl; [done|].
    destruct (includes (name e) "/__MACOSX/"); simpl; [done|].
    destruct (truthy (name e)); simpl; [|done].
    by destruct (String.eqb _ "result.json").
Qed.

(** The packaging handles every file the inspection lists, the message
    log apart; what it handles beyond the listing are entries whose name
    starts with [__MACOSX], which the inspection hides also without a
    following separator. *)
Theorem listed_files_are_packed lc uuid f (content : JSZip) :
  let zc := inspect lc uuid f content in
  (forall p, p ∈ files zc -> p ≠ "result.json" -> p ≠ "" ->
             p ∈ omap (packed_path (rootPrefix zc)) content) /\
  (forall e p, e ∈ content -> packed_path (rootPrefix zc) e = Some p ->
               p ∈ files zc \/ startsWith (name e) "__MACOSX" = true).
Proof.
  intros zc. subst zc. rewrite files_listed. split.
  - intros p (e & He & Hp)%list_elem_of_omap Hlog Hempty.
    apply list_elem_of_omap. exists e. split; [done|]. by apply listed_packed.
  - intros e p He [Hp|Hmac]%packed_listed; [left|by right].
    apply list_elem_of_omap. by exists e.
Qed.

Lemma listed_files_are_packed_witness :
  "photos/a.jpg" ∈
    omap (packed_path (rootPrefix (export_of "n" nested_export))) nested_export.
Proof.
  destruct (listed_files_are_packed localeCompare_lex "n"
              {| file_name := "n"; archive := Some nested_export |} nested_export)
    as [Hpacked _].
  apply Hpacked; [|done|done]. apply list_elem_of_In. vm_compute. auto.
Defined.

(** *** Which entries are listed *)

Lemma truthy_nonempty s : truthy s = true <-> s ≠ "".
Proof. unfold truthy. by destruct (String.eqb_spec s ""). Qed.

Lemma startsWith_split s p :
  startsWith s p = true -> s = p +:+ substring (String.length p) s.
Proof.
  unfold startsWith. intros H%String.prefix_correct.
  rewrite <- H at 1. by rewrite substring_rest.
Qed.

Lemma listed_iff rootPrefix e p :
  listed rootPrefix e = Some p <->
  dir e = false /\ skipped (name e) = false /\
  name e = rootPrefix +:+ p /\ (rootPrefix ≠ "" -> p ≠ "").
Proof.
  unfold listed. split.
  - destruct (skipped (name e)); [done|].
    destruct (truthy rootPrefix) eqn:Hroot.
    + destruct (startsWith (name e) rootPrefix) eqn:Hstart; simpl; [|done].
      destruct (dir e); simpl; [done|].
      destruct (truthy (substring _ _)) eqn:Hp; [|done]. intros [= <-].
      split; [done|]. split; [done|].
      split; [by apply startsWith_split|]. intros _. by apply truthy_nonempty.
    + destruct (dir e); simpl; [done|]. intros [= <-].
      assert (rootPrefix = "") as ->.
      { unfold truthy in Hroot. by destruct (String.eqb_spec rootPrefix ""). }
      done.
  - intros (-> & -> & Hname & Hp). simpl.
    destruct (truthy rootPrefix) eqn:Hroot.
    + rewrite Hname, startsWith_append, substring_append. simpl.
      assert (truthy p = true) as ->; [|done].
      apply truthy_nonempty, Hp. by apply truthy_nonempty.
    + assert (rootPrefix = "") as ->.
      { unfold truthy in Hroot. by destruct (String.eqb_spec rootPrefix ""). }
      by rewrite Hname.
Qed.

(** [files] lists exactly the entries that are no directories, are not
    hidden and lie under the root, each by its path relative to the
    root; the root itself is left out. *)
Theorem files_are_the_entries_under_the_root lc uuid f (content : JSZip) p :
  let zc := inspect lc uuid f content in
  p ∈ files zc <->
  exists e,
    e ∈ content /\ dir e = false /\ skipped (name e) = false /\
    name e = rootPrefix zc +:+ p /\ (rootPrefix zc ≠ "" -> p ≠ "").
Proof.
  intros zc. subst zc. rewrite files_listed, list_elem_of_omap.
  split; intros (e & He & Hp); exists e; (split; [done|]); by apply listed_iff.
Qed.

(** *** From the listing to the combined archive *)

Lemma inspect_valid lc uuid f content :
  valid (inspect lc uuid f content) = hasResultsJson (inspect lc uuid f content).
Proof.
  unfold valid, inspect. simpl. by destruct (loc_hasResultsJson (locate content)).
Qed.

(** Every file the inspection lists for an archive that has a message log
    has a file at the same root-relative path in the combined archive. *)
Theorem no_listed_file_is_lost lc h contents out uuid f zip p :
  combineZipContents h contents = Ok out ->
  archive f = Some zip ->
  inspect lc uuid f zip ∈ contents ->
  hasResultsJson (inspect lc uuid f zip) = true ->
  p ∈ files (inspect lc uuid f zip) -> p ≠ "" ->
  is_Some (blob out !! p).
Proof.
  intros (st & stats & Hst & _ & ->)%PackagerMore.combineZipContents_fields
    Hzip Hin Hlog Hp Hne. simpl.
  destruct (decide (p = "result.json")) as [->|Hp'];
    [by rewrite lookup_insert_eq|].
  rewrite lookup_insert_ne by done.
  destruct (pack_loop_accounted _ _ _ _ _ PackagerMore.accounted0 Hst)
    as (_ & Hcz & _).
  apply Hcz. simpl. unfold packed_paths.
  apply list_elem_of_In, in_flat_map. exists (inspect lc uuid f zip). split.
  - apply filter_In. split; [by apply list_elem_of_In|].
    by rewrite inspect_valid.
  - apply list_elem_of_In. simpl. rewrite Hzip. simpl.
    rewrite files_listed in Hp.
    apply list_elem_of_omap in Hp as (e & He & Hp).
    apply list_elem_of_omap. exists e. split; [done|]. by apply listed_packed.
Qed.

Lemma no_listed_file_is_lost_witness :
  exists out,
    combineZipContents steady_run [first_export; second_export] = Ok out /\
    is_Some (blob out !! "photos/a.jpg").
Proof.
  eexists. split; [reflexivity|].
  apply (no_listed_file_is_lost localeCompare_lex steady_run
           [first_export; second_export] _ "first.zip"
           {| file_name := "first.zip";
              archive := Some
                [ json_file "result.json" (log 42 [message 1 None "one"; edited_two]);
                  bytes_file "photos/a.jpg" "first copy" ] |}
           [ json_file "result.json" (log 42 [message 1 None "one"; edited_two]);
             bytes_file "photos/a.jpg" "first copy" ]
           "photos/a.jpg" eq_refl eq_refl).
  - apply list_elem_of_here.
  - by vm_compute.
  - apply list_elem_of_In. vm_compute. auto.
  - done.
Defined.

(** *** The names of the summary (third pass) *)

Lemma processFilePath_indexed fc st p e :
  indexed st ->
  indexed (processFilePath fc st p e) /\
  processedItems st ⊆ processedItems (processFilePath fc st p e) /\
  (top_level p = "" \/ top_level p ∈ processedItems (processFilePath fc st p e)).
Proof.
  intros (Hnd & Hmem & Hempty). unfold processFilePath. cbv zeta.
  fold (top_level p). case_bool_decide as Hseen; simpl.
  { split; [done|]. split; [done|by right]. }
  destruct (truthy (top_level p)) eqn:Htop; simpl.
  2: { split; [done|]. split; [done|]. left.
       destruct (String.eqb_spec (top_level p) "") as [->|Hne]; [done|].
       apply truthy_nonempty in Hne. congruence. }
  apply truthy_nonempty in Htop.
  assert (forall x, item_name x = top_level p ->
            indexed {| items := items st ++ [x];
                       processedItems := {[top_level p]} ∪ processedItems st |})
    as Hnew.
  { intros x Hx. split; [|split]; simpl.
    - rewrite map_app. simpl. rewrite Hx. apply NoDup_app. split; [done|].
      split; [|apply NoDup_singleton].
      intros n Hn ->%list_elem_of_singleton. by apply Hseen, Hmem.
    - intros n. rewrite map_app, elem_of_app, elem_of_union, elem_of_singleton.
      simpl. rewrite list_elem_of_singleton, Hx, Hmem. tauto.
    - rewrite elem_of_union, elem_of_singleton. intros [?|?]; [|done].
      by apply Htop. }
  destruct ((length (split slash p) =? 1) && negb (dir e)); simpl;
    (split; [by apply Hnew|]; split;
     [intros n Hn; apply elem_of_union; by right
     |right; apply elem_of_union; left; by apply elem_of_singleton]).
Qed.

Lemma summarise_step_cases rootPrefix fc st e :
  summarise_step rootPrefix fc st e = st \/
  exists p, summarise_step rootPrefix fc st e = processFilePath fc st p e.
Proof.
  unfold summarise_step.
  repeat match goal with
         | |- context [if ?c then _ else _] => destruct c
         end; eauto.
Qed.

Lemma summarise_step_listed rootPrefix fc st e p :
  listed rootPrefix e = Some p ->
  summarise_step rootPrefix fc st e = processFilePath fc st p e.
Proof.
  unfold listed, summarise_step.
  destruct (skipped (name e)); [done|].
  destruct (truthy rootPrefix).
  - destruct (startsWith (name e) rootPrefix); simpl; [|done].
    destruct (dir e); simpl; [done|].
    destruct (truthy (substring _ _)); [|done]. by intros [= <-].
  - destruct (dir e); simpl; [done|]. by intros [= <-].
Qed.

Lemma summarise_step_indexed rootPrefix fc st e :
  indexed st ->
  indexed (summarise_step rootPrefix fc st e) /\
  processedItems st ⊆ processedItems (summarise_step rootPrefix fc st e).
Proof.
  intros Hst.
  destruct (summarise_step_cases rootPrefix fc st e) as [->|[p ->]]; [done|].
  destruct (processFilePath_indexed fc st p e Hst) as (? & ? & _). done.
Qed.

Lemma summarise_from_indexed rootPrefix fc content st :
  indexed st ->
  indexed (foldl (summarise_step rootPrefix fc) st content) /\
  processedItems st ⊆
    processedItems (foldl (summarise_step rootPrefix fc) st content).
Proof.
  revert st. induction content as [|e content IH]; intros st Hst; simpl; [done|].
  destruct (summarise_step_indexed rootPrefix fc st e Hst) as [Hstep Hsub].
  destruct (IH _ Hstep) as [Hind Hsub']. split; [done|].
  by transitivity (processedItems (summarise_step rootPrefix fc st e)).
Qed.

Lemma summarise_covers rootPrefix fc content st e p :
  indexed st -> e ∈ content -> listed rootPrefix e = Some p ->
  top_level p ≠ "" ->
  top_level p ∈ processedItems (foldl (summarise_step rootPrefix fc) st content).
Proof.
  revert st. induction content as [|x content IH]; intros st Hst He Hp Htop;
    [by apply elem_of_nil in He|].
  simpl. destruct (summarise_step_indexed rootPrefix fc st x Hst) as [Hstep _].
  apply elem_of_cons in He as [<-|He]; [|by apply IH].
  destruct (summarise_from_indexed rootPrefix fc content _ Hstep) as [_ Hsub].
  apply Hsub. rewrite (summarise_step_listed _ _ _ _ _ Hp).
  destruct (processFilePath_indexed fc st p e Hst) as (_ & _ & [?|?]); done.
Qed.

Lemma indexed0 : indexed summary0.
Proof.
  split; [constructor|]. split; [|by intros ?%elem_of_empty].
  intros n. simpl. split; [by intros ?%elem_of_empty|by intros ?%elem_of_nil].
Qed.

(** The summary names each top-level file or folder once, never with an
    empty name, and every listed file lies under one of its items. *)
Theorem summary_names_distinct_and_cover lc uuid f (content : JSZip) :
  let zc := inspect lc uuid f content in
  NoDup (map item_name (topLevelItems zc)) /\
  Forall (fun item => item_name item ≠ "") (topLevelItems zc) /\
  Forall (fun p => top_level p = "" \/
                   exists item, item ∈ topLevelItems zc /\
                                item_name item = top_level p)
         (files zc).
Proof.
  intros zc. subst zc. rewrite files_listed. unfold inspect. simpl.
  set (rp := loc_rootPrefix (locate content)).
  set (fc := folderContents (collect rp content)).
  destruct (summarise_from_indexed rp fc content _ indexed0)
    as [(Hnd & Hmem & Hempty) _].
  fold (summarise rp fc content) in Hnd, Hmem, Hempty.
  split; [|split].
  - by rewrite (sort_perm (compareItems lc)).
  - apply Forall_forall. intros item Hitem%sort_elem Hname.
    apply Hempty, Hmem. rewrite <- Hname. by apply list_elem_of_fmap_2.
  - apply Forall_forall. intros p (e & He & Hp)%list_elem_of_omap.
    destruct (decide (top_level p = "")) as [|Htop]; [by left|]. right.
    pose proof (summarise_covers rp fc content _ e p indexed0 He Hp Htop) as Hin.
    fold (summarise rp fc content) in Hin.
    apply Hmem, list_elem_of_fmap in Hin as (item & Hname & Hitem).
    exists item. split; [by apply sort_elem|done].
Qed.

(** *** From the inspection to the reading of the log *)

Lemma find_by_name zip e :
  NoDup (map name zip) -> e ∈ zip ->
  List.find (fun x => String.eqb (name x) (name e)) zip = Some e.
Proof.
  induction zip as [|x zip IH]; simpl; [by intros _ ?%elem_of_nil|].
  intros [Hx Hnd]%NoDup_cons [->|He]%elem_of_cons.
  - by rewrite String.eqb_refl.
  - destruct (String.eqb_spec (name x) (name e)) as [Heq|_]; [|by apply IH].
    exfalso. apply Hx. rewrite Heq. by apply list_elem_of_fmap_2.
Qed.

Lemma candidate_named e : candidate e = true -> truthy (name e) = true.
Proof.
  unfold candidate. destruct (name e) as [|c s]; [|done].
  intros [_ H]%andb_true_iff. by vm_compute in H.
Qed.

Lemma locate_none zip : candidates zip = [] -> locate zip = located0.
Proof. unfold locate. rewrite locate_candidates. by intros ->. Qed.

Lemma locate_some zip e :
  last (candidates zip) = Some e ->
  e ∈ zip /\ dir e = false /\ truthy (name e) = true /\
  loc_resultJsonPath (locate zip) = name e.
Proof.
  intros [ms Hms]%last_Some.
  assert (In e (candidates zip)) as Hin.
  { rewrite Hms. apply in_or_app. right. by left. }
  apply filter_In in Hin as [Hin Hc].
  split; [by apply list_elem_of_In|].
  split; [unfold candidate in Hc; by destruct (dir e), (skipped (name e))|].
  split; [by apply candidate_named|].
  unfold locate. rewrite locate_candidates, Hms.
  by rewrite (locate_last _ _ _ Hc).
Qed.

(** For an archive that opens and whose entries have distinct names, as
    the [files] of a JSZip object do, the merge reads the very entry the
    inspection located last: it skips the archive when none was located,
    and parses that entry otherwise. *)
Theorem located_log_is_read lc uuid f zip :
  archive f = Some zip ->
  NoDup (map name zip) ->
  read_log (inspect lc uuid f zip) =
    match last (candidates zip) with
    | None => Ok None
    | Some e => resultData ← JSON_parse e; Ok (Some resultData)
    end.
Proof.
  intros Hzip Hnd. unfold read_log, inspect. simpl.
  destruct (last (candidates zip)) as [e|] eqn:Hlast.
  - destruct (locate_some _ _ Hlast) as (He & Hdir & Htruthy & ->).
    rewrite Htruthy. simpl. unfold loadAsync. rewrite Hzip. unfold_result.
    unfold file. rewrite (find_by_name _ _ Hnd He), Hdir. done.
  - apply last_None in Hlast. by rewrite (locate_none _ Hlast).
Qed.

Lemma located_log_is_read_witness :
  read_log first_export = Ok (Some (log 42 [message 1 None "one"; edited_two])).
Proof.
  apply (located_log_is_read localeCompare_lex "first.zip"
           {| file_name := "first.zip";
              archive := Some
                [ json_file "result.json" (log 42 [message 1 None "one"; edited_two]);
                  bytes_file "photos/a.jpg" "first copy" ] |}
           [ json_file "result.json" (log 42 [message 1 None "one"; edited_two]);
             bytes_file "photos/a.jpg" "first copy" ] eq_refl).
  apply (bool_decide_unpack _). by vm_compute.
Defined.

End InspectorMore.

(** ** More about the component *)

Module ComponentMore.
Import JsString Zip Inspector Merge Packager Combiner Component Notions.
Import ParseFacts DedupFacts MergeFacts PackagerFacts CombinerFacts Examples.

(** *** Analysis and merge on one archive *)

(** The analysis and the merge read an archive's log alike. Whenever
    the analysis returns, the merge reads that archive's log and finds in
    it the id the analysis reports, and the name unless it is empty;
    where the merge silently skips the archive, the analysis fails for
    want of a log; and where the merge fails to open the file or to parse
    the log, so does the analysis. *)
Theorem analysis_and_merge_read_alike c :
  (forall a, analyzeResultJson c = Ok a ->
     exists r,
       read_log c = Ok (Some r) /\ an_id a = chat_id r /\
       an_name a = if truthy (chat_name r) then chat_name r
                   else "Unknown Chat") /\
  (read_log c = Ok None ->
     analyzeResultJson c = Throw NoResultJsonInExport \/
     analyzeResultJson c = Throw (CouldNotFind (resultJsonPath c))) /\
  (forall e, read_log c = Throw e ->
     (e = CorruptedZip /\ analyzeResultJson c = Throw CorruptedZip) \/
     (e = SyntaxError /\
      analyzeResultJson c = Throw (ErrorParsing SyntaxError))).
Proof.
  unfold read_log, analyzeResultJson, loadAsync, JSON_parse. unfold_result.
  destruct (originalFile c) as [f|]; [|split; [done|split; [by left|done]]].
  destruct (negb (truthy (resultJsonPath c)));
    [split; [done|split; [by left|done]]|].
  destruct (archive f) as [zip|];
    [|split; [done|split; [done|intros e [= <-]; by left]]].
  destruct (file zip (resultJsonPath c)) as [entry|];
    [|split; [done|split; [by right|done]]].
  destruct (data entry) as [r|b].
  - split; [|done]. intros a [= <-]. by exists r.
  - split; [done|]. split; [done|]. intros e [= <-]. by right.
Qed.

Lemma analysis_and_merge_read_alike_witness :
  exists r, read_log first_export = Ok (Some r) /\ chat_id r = 42%Z.
Proof.
  destruct (analysis_and_merge_read_alike first_export) as [Hreturns _].
  destruct (Hreturns _ eq_refl) as (r & Hr & Hid & _).
  exists r. split; [exact Hr|]. by rewrite <- Hid.
Defined.

Lemma analysed_read c a :
  analyzeResultJson c = Ok a ->
  exists r f zip,
    read_log c = Ok (Some r) /\ chat_id r = an_id a /\
    originalFile c = Some f /\ archive f = Some zip.
Proof.
  unfold read_log, analyzeResultJson, loadAsync, JSON_parse. unfold_result.
  destruct (originalFile c) as [f|]; [|done].
  destruct (negb (truthy (resultJsonPath c))); [done|].
  destruct (archive f) as [zip|] eqn:Hzip; [|done].
  destruct (file zip (resultJsonPath c)) as [entry|]; [|done].
  destruct (data entry) as [r|]; [|done].
  intros [= <-]. by exists r, f, zip.
Qed.

(** *** A clean analysis and the combination that follows *)

Lemma analyse_step_valid st c st' :
  valid c = true -> hasResultsJson c = true ->
  analyse_step st c = Ok st' ->
  exists a, analyzeResultJson c = Ok a /\ a ∈ results st'.
Proof.
  unfold analyse_step. intros -> ->. simpl. unfold_result.
  destruct (analyzeResultJson c) as [a|]; [|done].
  assert (a ∈ results st ++ [a]) as Hin.
  { apply elem_of_app. right. apply list_elem_of_here. }
  destruct (firstId st) as [first|];
    [destruct (negb (first =? an_id a)%Z)|];
    intros [= <-]; by exists a.
Qed.

Lemma analyse_loop_all st contents st' :
  analyse_loop st contents = (st', None) ->
  Forall (fun c => valid c = true -> hasResultsJson c = true ->
                   exists a, analyzeResultJson c = Ok a /\ a ∈ results st')
         contents.
Proof.
  revert st. induction contents as [|c contents IH]; intros st; simpl;
    [constructor|].
  destruct (analyse_step st c) as [st1|] eqn:Hstep; [|done].
  intros Hloop. constructor; [|by eapply IH].
  intros Hv Hh. destruct (analyse_step_valid _ _ _ Hv Hh Hstep) as (a & Ha & Hin).
  exists a. split; [done|]. by eapply analyse_loop_grows.
Qed.

Lemma read_logs_all l f :
  Forall (fun c => exists r, read_log c = Ok (Some r) /\ chat_id r = f) l ->
  exists logs,
    read_logs l = Ok logs /\ Forall (fun r => chat_id r = f) logs /\
    length logs = length l.
Proof.
  induction 1 as [|c l (r & Hr & Hf) _ (logs & Hlogs & Hall & Hlen)]; simpl.
  - by exists [].
  - rewrite Hr, Hlogs. unfold_result. exists (r :: logs).
    split; [done|]. split; [by constructor|]. simpl. by rewrite Hlen.
Qed.

Lemma pack_loop_runs h l st :
  Forall (fun c => exists f zip, originalFile c = Some f /\ archive f = Some zip) l ->
  exists st', pack_loop h st l = Ok st'.
Proof.
  intros Hl. revert st.
  induction Hl as [|c l (f & zip & Hf & Hzip) _ IH]; intros st; simpl; [eauto|].
  unfold pack_content, loadAsync. rewrite Hf, Hzip. unfold_result. apply IH.
Qed.

Lemma clean_analysis_combines h contents st :
  analyse_loop analysing0 contents = (st, None) ->
  mismatch st = false ->
  List.filter valid contents ≠ [] ->
  Forall (fun c => valid c = true -> hasResultsJson c = true) contents ->
  exists out, combineZipContents h contents = Ok out.
Proof.
  intros Hloop Hclean Hne Hshape.
  destruct (analyse_loop_tracking _ _ _ _ tracking0 Hloop) as [(Hfirst & Hflag & _) _].
  pose proof (analyse_loop_all _ _ _ Hloop) as Hall.
  assert (Forall (fun c => exists a, analyzeResultJson c = Ok a /\ a ∈ results st)
                 (List.filter valid contents)) as Hvalid.
  { apply Forall_forall. intros c [Hc Hv]%list_elem_of_In%filter_In.
    apply list_elem_of_In in Hc.
    rewrite Forall_forall in Hall, Hshape. apply (Hall c Hc Hv), (Hshape c Hc Hv). }
  assert (exists f, firstId st = Some f) as [f Hf].
  { destruct (List.filter valid contents) as [|c0 l]; [done|].
    apply Forall_cons in Hvalid as [(a & _ & Ha) _].
    rewrite Hfirst. destruct (results st); [by apply elem_of_nil in Ha|].
    simpl. eauto. }
  assert (forall a, a ∈ results st -> an_id a = f) as Hids.
  { intros a Ha. destruct (decide (an_id a = f)) as [|Hdiff]; [done|].
    rewrite (Hflag a f Ha Hf Hdiff) in Hclean. done. }
  assert (Forall (fun c => exists r, read_log c = Ok (Some r) /\ chat_id r = f)
                 (List.filter valid contents)) as Hread.
  { eapply Forall_impl; [exact Hvalid|]. intros c (a & Ha & Hin).
    destruct (analysed_read _ _ Ha) as (r & _ & _ & Hr & Hid & _).
    exists r. split; [done|]. rewrite Hid. by apply Hids. }
  assert (Forall (fun c => exists f zip, originalFile c = Some f /\
                                         archive f = Some zip)
                 (List.filter valid contents)) as Hfiles.
  { eapply Forall_impl; [exact Hvalid|]. intros c (a & Ha & _).
    destruct (analysed_read _ _ Ha) as (_ & f0 & zip & _ & _ & ? & ?). eauto. }
  destruct (read_logs_all _ _ Hread) as (logs & Hlogs & Hall' & Hlen).
  assert (logs ≠ []) as Hlogs_ne.
  { intros ->. simpl in Hlen. symmetry in Hlen.
    by apply nil_length_inv in Hlen. }
  destruct (parse_loop_run parsed0 _ _ Hlogs) as [ps Hps].
  { simpl. intros f'. destruct logs as [|r0 l]; [done|]. simpl. intros [= <-].
    apply Forall_cons in Hall' as [Hr0 Hl]. rewrite Hr0. by constructor. }
  destruct (combine_run _ _ Hne Hps) as [stats Hstats].
  { destruct (parse_loop_Ok _ _ _ Hps) as (l2 & Hl2 & Hrs & _).
    rewrite Hlogs in Hl2. injection Hl2 as <-. simpl in Hrs. by rewrite Hrs. }
  destruct (pack_loop_runs h _ packing0 Hfiles) as [st' Hpack].
  unfold combineZipContents.
  destruct (length (List.filter valid contents) =? 0) eqn:Hlen0.
  { apply Nat.eqb_eq, nil_length_inv in Hlen0. done. }
  rewrite Hpack, Hstats. unfold_result. eauto.
Qed.

(** For archives whose logs are as [ResultData] describes them (a
    numeric chat id, messages that are records): when the analysis of the
    listed archives runs to its end without raising the mismatch flag,
    and the valid archives, of which there is one at least, have a
    located log as every result of [unzipFile] has, then the combination
    that follows succeeds and shows no error. *)
Theorem clean_analysis_lets_combine_succeed h s :
  (analyse_loop analysing0 (zipContents s)).2 = None ->
  idMismatch (handleAnalyze s) = false ->
  List.filter valid (zipContents s) ≠ [] ->
  Forall (fun c => valid c = true -> hasResultsJson c = true) (zipContents s) ->
  exists out,
    combineZipContents h (zipContents s) = Ok out /\
    combinedResult (handleCombine h (handleAnalyze s)) = Some out /\
    ui_error (handleCombine h (handleAnalyze s)) = None.
Proof.
  unfold handleAnalyze.
  destruct (analyse_loop analysing0 (zipContents s)) as [st [e|]] eqn:Hloop;
    simpl; [done|].
  intros _ Hclean Hne Hshape.
  destruct (clean_analysis_combines h _ _ Hloop Hclean Hne Hshape) as [out Hout].
  exists out. split; [done|]. unfold handleCombine. simpl.
  rewrite Hclean, Hout. done.
Qed.

Lemma clean_analysis_lets_combine_succeed_witness :
  exists out,
    combineZipContents steady_run [first_export; second_export] = Ok out.
Proof.
  destruct (clean_analysis_lets_combine_succeed steady_run
              {| zipContents := [first_export; second_export];
                 analysisComplete := false; ui_error := None;
                 analysisResults := []; idMismatch := false;
                 combinedResult := None |})
    as (out & Hout & _).
  - by vm_compute.
  - by vm_compute.
  - by vm_compute.
  - repeat constructor.
  - by exists out.
Defined.

(** *** The verdict of a completed analysis *)

Lemma analyse_step_exact st c st' :
  tracking st -> exact st -> analyse_step st c = Ok st' -> exact st'.
Proof.
  intros (Hfirst & _) [Hup Hdown] Hstep.
  destruct (analyse_step_Ok _ _ _ Hstep) as [[-> _]|(a & _ & Hres & Hcase)];
    [done|].
  assert (forall x, x ∈ results st -> x ∈ results st') as Hkeep.
  { intros x Hx. rewrite Hres. apply elem_of_app. by left. }
  assert (a ∈ results st') as Hnew.
  { rewrite Hres. apply elem_of_app. right. apply list_elem_of_here. }
  destruct (firstId st) as [f|] eqn:Hf.
  - destruct Hcase as (Hf' & [(_ & Hm & Hs)|(Hne & Hm & Hs)]).
    + split; intros Hm'; rewrite Hm in Hm'.
      * destruct (Hup Hm') as (x & Hx & Hdiff).
        exists x. split; [by apply Hkeep|]. by rewrite Hf'.
      * rewrite Hs. by apply Hdown.
    + split; intros Hm'; [|congruence].
      exists a. split; [done|]. rewrite Hf'. congruence.
  - destruct Hcase as (Hf' & Hm & Hs).
    split; intros Hm'; rewrite Hm in Hm'.
    + destruct (Hup Hm') as (x & Hx & _).
      destruct (results st); [by apply elem_of_nil in Hx|done].
    + rewrite Hs. by apply Hdown.
Qed.

Lemma analyse_loop_exact st contents st' o :
  tracking st -> exact st -> analyse_loop st contents = (st', o) -> exact st'.
Proof.
  revert st. induction contents as [|c contents IH]; intros st Ht Hst; simpl.
  - by intros [= <- _].
  - destruct (analyse_step st c) as [st1|] eqn:Hstep; [|by intros [= <- _]].
    apply IH; [by eapply analyse_step_tracking|by eapply analyse_step_exact].
Qed.

(** After an analysis that ran to its end, the mismatch flag is raised
    exactly when two of the analysed logs differ in their chat id, and an
    error is shown exactly when the flag is raised. *)
Theorem analysis_flag_is_exact s :
  (analyse_loop analysing0 (zipContents s)).2 = None ->
  let s' := handleAnalyze s in
  analysisComplete s' = true /\
  (idMismatch s' = true <->
     exists a b, a ∈ analysisResults s' /\ b ∈ analysisResults s' /\
                 an_id a ≠ an_id b) /\
  (ui_error s' = None <-> idMismatch s' = false).
Proof.
  unfold handleAnalyze.
  destruct (analyse_loop analysing0 (zipContents s)) as [st [e|]] eqn:Hloop;
    simpl; [done|]. intros _.
  destruct (analyse_loop_tracking _ _ _ _ tracking0 Hloop)
    as [(Hfirst & Hflag & Hshown) _].
  assert (exact analysing0) as H0 by (split; [done|done]).
  destruct (analyse_loop_exact _ _ _ _ tracking0 H0 Hloop) as [Hup Hdown].
  split; [done|]. split; [split|split].
  - intros (a & Ha & Hdiff)%Hup. rewrite Hfirst in Hdiff.
    destruct (results st) as [|a0 l] eqn:Hres; [by apply elem_of_nil in Ha|].
    exists a0, a. split; [apply list_elem_of_here|]. split; [done|].
    simpl in Hdiff. congruence.
  - intros (a & b & Ha & Hb & Hdiff).
    destruct (results st) as [|a0 l] eqn:Hres; [by apply elem_of_nil in Ha|].
    simpl in Hfirst.
    destruct (decide (an_id a = an_id a0)) as [Heq|Hne].
    + apply (Hflag b (an_id a0)); [done|done|congruence].
    + by apply (Hflag a (an_id a0)).
  - intros Hnone. destruct (mismatch st) eqn:Hm; [|done].
    destruct (Hshown eq_refl) as (f & b & _ & _ & Hs). congruence.
  - apply Hdown.
Qed.

Lemma analysis_flag_is_exact_witness :
  idMismatch
    (handleAnalyze
       {| zipContents := [first_export; other_chat];
          analysisComplete := false; ui_error := None;
          analysisResults := []; idMismatch := false;
          combinedResult := None |}) = true.
Proof.
  destruct (analysis_flag_is_exact
              {| zipContents := [first_export; other_chat];
                 analysisComplete := false; ui_error := None;
                 analysisResults := []; idMismatch := false;
                 combinedResult := None |}) as (_ & Hiff & _);
    [by vm_compute|].
  apply Hiff. eexists _, _.
  split; [apply list_elem_of_here|].
  split; [apply list_elem_of_further, list_elem_of_here|]. by vm_compute.
Defined.

(** *** Adding files *)

Lemma add_files_spec lc uuidv4 n s files :
  let s' := add_files lc uuidv4 n s files in
  (exists contents,
      zipContents s' = zipContents s ++ contents /\
      Forall2 (inspected lc) (List.filter loadable files) contents) /\
  ui_error s' =
    match last (List.filter (fun f => negb (loadable f)) files) with
    | Some f => Some (ErrorProcessing (file_name f) CorruptedZip)
    | None => ui_error s
    end /\
  analysisComplete s' = analysisComplete s /\
  analysisResults s' = analysisResults s /\
  idMismatch s' = idMismatch s /\
  combinedResult s' = combinedResult s.
Proof.
  revert n s. induction files as [|f files IH]; intros n s; simpl.
  - split; [|done]. exists []. by rewrite app_nil_r.
  - assert (loadable f = match archive f with Some _ => true | None => false end)
      as Hl by done.
    unfold unzipFile, loadAsync. unfold_result. rewrite !Hl.
    destruct (archive f) as [zip|] eqn:Hzip; simpl.
    + match goal with |- context [add_files lc uuidv4 (S n) ?s1 files] =>
        destruct (IH (S n) s1) as ((contents & Hc & Hall) & He & Hrest) end.
      simpl in *. split; [|done].
      exists (inspect lc (uuidv4 n) f zip :: contents).
      split; [by rewrite Hc, <- app_assoc|].
      constructor; [by exists (uuidv4 n), zip|done].
    + match goal with |- context [add_files lc uuidv4 n ?s1 files] =>
        destruct (IH n s1) as (Hcontents & He & Hrest) end.
      simpl in *. split; [done|]. split; [|done].
      rewrite He, last_cons. by destruct (last _).
Qed.

(** Given files that cannot be opened or whose archives have only names
    of their own at the top level, [handleFilesAdded] clears the results
    of earlier analyses and combinations, appends one inspection result
    for each file that can be opened, in the order given, leaves the
    other files out, and shows the failure of the last of these, if
    any. *)
Theorem files_are_added_one_by_one lc uuidv4 files s :
  forallb ordinary files = true ->
  let s' := handleFilesAdded lc uuidv4 files s in
  (exists contents,
      zipContents s' = zipContents s ++ contents /\
      Forall2 (inspected lc) (List.filter loadable files) contents) /\
  ui_error s' =
    (fun f => ErrorProcessing (file_name f) CorruptedZip) <$>
      last (List.filter (fun f => negb (loadable f)) files) /\
  analysisComplete s' = false /\ analysisResults s' = [] /\
  idMismatch s' = false /\ combinedResult s' = None.
Proof.
  intros _. simpl. unfold handleFilesAdded.
  match goal with |- context [add_files lc uuidv4 0 ?s1 files] =>
    destruct (add_files_spec lc uuidv4 0 s1 files) as (Hc & He & Hrest) end.
  simpl in *. split; [done|]. split; [|done].
  rewrite He. by destruct (last _).
Qed.

Lemma files_are_added_one_by_one_witness :
  ui_error
    (handleFilesAdded localeCompare_lex (fun _ => "id")
       [first_file; some_file] mounted) =
  Some (ErrorProcessing "export.zip" CorruptedZip).
Proof.
  destruct (files_are_added_one_by_one localeCompare_lex (fun _ => "id")
              [first_file; some_file] mounted) as (_ & He & _);
    [by vm_compute|].
  exact He.
Defined.

(** *** The component between handler runs *)

Lemma inspected_shape lc f c :
  inspected lc f c ->
  valid c = hasResultsJson c /\
  exists f' zip, originalFile c = Some f' /\ archive f' = Some zip.
Proof.
  intros (uuid & zip & Hzip & ->). split; [apply InspectorMore.inspect_valid|].
  by exists f, zip.
Qed.

Lemma step_settled lc s ev : settled lc s -> settled lc (step lc s ev).
Proof.
  intros [Hfrom Hdone]. destruct ev as [uuidv4 files| |h|]; simpl.
  - destruct (add_files_spec lc uuidv4 0
                {| zipContents := zipContents s; analysisComplete := false;
                   ui_error := None; analysisResults := [];
                   idMismatch := false; combinedResult := None |} files)
      as ((contents & Hc & Hall) & _ & Hcomplete & _).
    unfold handleFilesAdded. simpl in *. split.
    + rewrite Hc. apply Forall_app. split; [done|].
      clear Hc. induction Hall as [|f c fs cs Hfc _ IH]; constructor; eauto.
    + rewrite Hcomplete. done.
  - destruct (analyze_enabled s) eqn:Hen; [|done].
    apply andb_true_iff in Hen as [_ Hvalid].
    unfold handleAnalyze.
    destruct (analyse_loop analysing0 (zipContents s)) as [st [e|]] eqn:Hloop.
    + split; [done|]. simpl. intros Hc.
      destruct (Hdone Hc) as (_ & st0 & Hst0 & _). congruence.
    + split; [done|]. simpl. intros _. split; [done|]. by exists st.
  - destruct (combine_enabled s); [|done].
    unfold handleCombine.
    destruct (idMismatch s); [done|].
    by destruct (combineZipContents h (zipContents s)).
  - destruct (buttons_shown s); [|done]. split; [constructor|done].
Qed.

Lemma run_settled lc evs : settled lc (run lc evs).
Proof.
  unfold run. apply (foldl_invariant (settled lc)).
  - intros s ev. apply step_settled.
  - split; [constructor|done].
Qed.

(** For dropped files whose archives have only names of their own at
    the top level and whose logs are as [ResultData] describes them: in
    every state the component reaches by handler runs that follow one
    another, an enabled Combine button keeps its promise: pressing it
    produces the combined archive and no error. *)
Theorem enabled_combine_succeeds lc evs h :
  forallb ordinary_event evs = true ->
  let s := run lc evs in
  combine_enabled s = true ->
  exists out,
    combineZipContents h (zipContents s) = Ok out /\
    combinedResult (step lc s (CombineClicked h)) = Some out /\
    ui_error (step lc s (CombineClicked h)) = None.
Proof.
  intros _ s Hen. simpl. rewrite Hen.
  destruct (run_settled lc evs) as [Hfrom Hdone]. fold s in Hfrom, Hdone.
  unfold combine_enabled in Hen.
  apply andb_true_iff in Hen as [[[_ Hcomplete]%andb_true_iff Hclean]%andb_true_iff _].
  apply negb_true_iff in Hclean.
  destruct (Hdone Hcomplete) as (Hvalid & st & Hloop & Hflag).
  apply andb_true_iff in Hvalid as [Hmany Hvalid].
  destruct (clean_analysis_combines h (zipContents s) st Hloop) as [out Hout].
  - congruence.
  - destruct (zipContents s) as [|c0 l]; [done|]. simpl in *.
    apply andb_true_iff in Hvalid as [-> _]. done.
  - eapply Forall_impl; [exact Hfrom|]. intros c [f Hc] Hv.
    destruct (inspected_shape _ _ _ Hc) as [<- _]. done.
  - exists out. split; [done|]. unfold handleCombine. by rewrite Hclean, Hout.
Qed.

Lemma enabled_combine_succeeds_witness :
  exists out,
    combinedResult
      (run localeCompare_lex
         [FilesDropped (fun _ => "id") [first_file; second_file];
          AnalyzeClicked; CombineClicked steady_run]) = Some out.
Proof.
  destruct (enabled_combine_succeeds localeCompare_lex
              [FilesDropped (fun _ => "id") [first_file; second_file];
               AnalyzeClicked] steady_run) as (out & _ & Hout & _).
  - by vm_compute.
  - by vm_compute.
  - by exists out.
Defined.

End ComponentMore.
